(** * RBniCS: POD engine and online affine expansion storage

    A shallow embedding of
      - rbnics/backends/basic/proper_orthogonal_decomposition_base.py
      - rbnics/backends/online/numpy/affine_expansion_storage.py
    Scalars (Python floats, numpy float64) are exact rationals [Q]; Python
    ints are [Z], container indices are [nat].  Methods that assign
    attributes of [self] or raise are computations in a state-and-exception
    monad: the state reached when an exception escapes is kept, as in
    Python. *)

From Stdlib Require Import ZArith QArith Qabs Lia Lqa.
From stdpp Require Import base option list strings pretty gmap.

Local Open Scope Q_scope.

(** ** Exceptions and the state-and-exception monad *)

Inductive exn : Type :=
| AssertionError
| UnboundLocalError
| IndexError
| ValueError
| ZeroDivisionError
| FileNotFoundError.

Inductive result (A : Type) : Type :=
| Ok (a : A)
| Raise (e : exn).
Arguments Ok {A} a.
Arguments Raise {A} e.

Definition M (S A : Type) : Type := S -> result A * S.

Definition ret {S A} (a : A) : M S A := fun s => (Ok a, s).

Definition bind {S A B} (c : M S A) (k : A -> M S B) : M S B :=
  fun s => match c s with
           | (Ok a, s') => k a s'
           | (Raise e, s') => (Raise e, s')
           end.

Definition raise {S A} (e : exn) : M S A := fun s => (Raise e, s).
Definition gets {S A} (f : S -> A) : M S A := fun s => (Ok (f s), s).
Definition modify {S} (f : S -> S) : M S unit := fun s => (Ok tt, f s).
Definition lift {S A} (r : result A) : M S A := fun s => (r, s).
Definition assert {S} (b : bool) : M S unit :=
  if b then ret tt else raise AssertionError.

Notation "x <- c ;; k" := (bind c (fun x => k))
  (at level 100, c at next level, right associativity).
Notation "c ;;; k" := (bind c (fun _ => k))
  (at level 100, right associativity).

(** ** Dense numeric containers *)

Definition Vector : Type := list Q.
Definition Matrix : Type := list (list Q).
Definition Basis : Type := list Vector.

(** Python [range(n)]: empty when [n <= 0]. *)
Definition range (n : Z) : list nat := seq 0 (Z.to_nat n).

(** numpy [zeros(n)], [abs], [sum], [cumsum]. *)
Definition zeros (n : nat) : list Q := repeat 0 n.
Definition np_abs (a : list Q) : list Q := map Qabs a.
Definition compute_total_energy (a : list Q) : Q := fold_left Qplus a 0.

Fixpoint cumsum_from (acc : Q) (a : list Q) : list Q :=
  match a with
  | [] => []
  | x :: a' => (acc + x) :: cumsum_from (acc + x) a'
  end.

Definition compute_retained_energy (a : list Q) : list Q :=
  match a with
  | [] => []
  | x :: a' => x :: cumsum_from x a'
  end.

(** [a > b] on floats. *)
Definition Qgtb (a b : Q) : bool := negb (Qle_bool a b).

(** numpy [isclose(a, b)] with the default [rtol = 1e-05], [atol = 1e-08]. *)
Definition rtol : Q := 1 # 100000.
Definition atol : Q := 1 # 100000000.
Definition isclose (a b : Q) : bool :=
  Qle_bool (Qabs (a - b)) (atol + rtol * Qabs b).

(** Indexing [a[i]] with [0 <= i]: out of range raises [IndexError]. *)
Definition getitem {A} (a : list A) (i : nat) : result A :=
  match a !! i with
  | Some x => Ok x
  | None => Raise IndexError
  end.

(** In-place array operations [a /= d] and [a += d].  A zero divisor is made
    observable as [ZeroDivisionError], so that "no division by zero is
    executed" is a statement about the outcomes of the callers. *)
Definition array_div (a : list Q) (d : Q) : result (list Q) :=
  if Qeq_bool d 0 then Raise ZeroDivisionError
  else Ok (map (fun x => x / d) a).
Definition array_add (a : list Q) (d : Q) : list Q := map (fun x => x + d) a.

(** Backend algebra: dot product, [A*v], [transpose(u)*X*v] (Euclidean when
    [X is None]), and [snapshots_matrix*eigvector], the combination of the
    stored snapshots with the entries of the eigenvector as weights. *)
Definition dot (u v : Vector) : Q :=
  fold_right Qplus 0 (zip_with Qmult u v).
Definition matvec (A : Matrix) (v : Vector) : Vector :=
  map (fun row => dot row v) A.
Definition inner (X : option Matrix) (u v : Vector) : Q :=
  match X with
  | Some A => dot u (matvec A v)
  | None => dot u v
  end.
Definition vadd (u v : Vector) : Vector := zip_with Qplus u v.
Definition vscale (c : Q) (u : Vector) : Vector := map (Qmult c) u.
Definition dim (S : list Vector) : nat := length (hd [] S).
Definition lincomb (S : list Vector) (c : Vector) : Vector :=
  fold_right vadd (zeros (dim S)) (zip_with vscale c S).
Definition correlation (X : option Matrix) (S : list Vector) : Matrix :=
  map (fun si => map (fun sj => inner X si sj) S) S.

(** [Z.enrich(b)]: the basis container grows at its end. *)
Definition enrich (Zb : Basis) (b : Vector) : Basis := Zb ++ [b].

(** Sum of a list, for stating facts about [compute_total_energy]. *)
Definition sumQ (a : list Q) : Q := fold_right Qplus 0 a.

(** The energy fractions stored by lines 78-83, as a function of the
    eigenvalue array. *)
Definition energy_fractions (eigs : list Q) : list Q :=
  let a := np_abs eigs in
  if Qgtb (compute_total_energy a) 0
  then map (fun x => x / compute_total_energy a) (compute_retained_energy a)
  else array_add (compute_retained_energy a) 1.

(** ** The POD engine *)

(** The solved eigensolver object of the online backend. *)
Record EigenSolver : Type := {
  get_eigenvalue : nat -> Q * Q;
  get_eigenvector : nat -> Vector * Vector
}.

(** The communicator of the engine, as seen by one participant. *)
Record Comm : Type := { rank : nat }.

Record POD : Type := {
  X : option Matrix;
  mpi_comm : Comm;
  snapshots_matrix : list Vector;
  eigenvalues : list Q;
  retained_energy : list Q
}.

Definition set_eigenvalues (v : list Q) (self : POD) : POD :=
  {| X := X self; mpi_comm := mpi_comm self;
     snapshots_matrix := snapshots_matrix self;
     eigenvalues := v; retained_energy := retained_energy self |}.
Definition set_retained_energy (v : list Q) (self : POD) : POD :=
  {| X := X self; mpi_comm := mpi_comm self;
     snapshots_matrix := snapshots_matrix self;
     eigenvalues := eigenvalues self; retained_energy := v |}.
Definition set_snapshots_matrix (v : list Vector) (self : POD) : POD :=
  {| X := X self; mpi_comm := mpi_comm self;
     snapshots_matrix := v;
     eigenvalues := eigenvalues self; retained_energy := retained_energy self |}.

(** [__init__]: no snapshots, both sequences [zeros(0)]. *)
Definition __init__ (X0 : option Matrix) (comm : Comm) : POD :=
  {| X := X0; mpi_comm := comm; snapshots_matrix := [];
     eigenvalues := zeros 0; retained_energy := zeros 0 |}.

(** [clear]: [self.snapshots_matrix.clear()] and
    [self.eigenvalues = zeros(0)], nothing else. *)
Definition clear : M POD unit :=
  modify (set_snapshots_matrix []) ;;;
  modify (set_eigenvalues (zeros 0)).

(** ** Vocabulary for the statements *)

(** The eigensolver contract checked by line 75: eigenvalue [i] is
    numerically real. *)
Definition real_at (es : EigenSolver) (i : nat) : Prop :=
  isclose (get_eigenvalue es i).2 0 = true.
Definition eigs_real (es : EigenSolver) (n : nat) : Prop :=
  forall i, (i < n)%nat -> real_at es i.

(** The inner-product contract: the form of [X] is positive semi-definite,
    so that the argument of [math.sqrt] is never negative. *)
Definition psd (X0 : option Matrix) : Prop := forall v, 0 <= inner X0 v v.

(** The real parts returned by the eigensolver for indices [0 .. n-1]. *)
Definition solver_eigenvalues (es : EigenSolver) (n : nat) : list Q :=
  map (fun i => (get_eigenvalue es i).1) (seq 0 n).

(** The stores [self.eigenvalues[i] = eig_i_real] over a range. *)
Definition stored (es : EigenSolver) (rng : list nat) (ev : list Q) : list Q :=
  fold_left (fun ev i => <[i := (get_eigenvalue es i).1]> ev) rng ev.

(** The test of line 95 on an energy array: [re[n] > 1 - tol]. *)
Definition cross (re : list Q) (tol : Q) (n : nat) : bool :=
  match re !! n with
  | Some r => Qgtb r (1 - tol)
  | None => false
  end.


(** The form of [X] vanishes on the zero vector only. *)
Definition definite (X0 : option Matrix) : Prop :=
  forall v, inner X0 v v == 0 -> Forall (fun x => x == 0) v.

(** Value of the loop variable when the loop over [rng] is left, and the
    indices whose body ran. *)
Fixpoint stop_index (re : list Q) (tol : Q) (rng : list nat) (N : option nat)
    : option nat :=
  match rng with
  | [] => N
  | n :: rng' =>
      if cross re tol n then Some n else stop_index re tol rng' (Some n)
  end.

Fixpoint visited (re : list Q) (tol : Q) (rng : list nat) : list nat :=
  match rng with
  | [] => []
  | n :: rng' => n :: (if cross re tol n then [] else visited re tol rng')
  end.

Section Apply.

(** [math.sqrt] on a non-negative argument, and the constructor-and-solve of
    the online eigensolver: both live outside the repository. *)
Variable sqrt : Q -> Q.
Variable OnlineEigenSolver : Basis -> Matrix -> EigenSolver.

(** [math.sqrt] raises [ValueError] on a negative argument. *)
Definition math_sqrt (x : Q) : result Q :=
  if Qgtb 0 x then Raise ValueError else Ok (sqrt x).

(** The vector handed to [Z.enrich] at iteration [n] when [math.sqrt]
    succeeds. *)
Definition candidate (es : EigenSolver) (X0 : option Matrix)
    (snaps : list Vector) (n : nat) : Vector :=
  let b := lincomb snaps (get_eigenvector es n).1 in
  let norm_b := sqrt (inner X0 b b) in
  if Qeq_bool norm_b 0 then b else map (fun x => x / norm_b) b.

(** Lines 73-76: the assertion on the imaginary part, then the store. *)
Fixpoint read_eigenvalues (es : EigenSolver) (rng : list nat) : M POD unit :=
  match rng with
  | [] => ret tt
  | i :: rng' =>
      let '(eig_i_real, eig_i_complex) := get_eigenvalue es i in
      assert (isclose eig_i_complex 0) ;;;
      modify (fun self =>
        set_eigenvalues (<[i := eig_i_real]> (eigenvalues self)) self) ;;;
      read_eigenvalues es rng'
  end.

(** Lines 85-96: the enrichment loop.  [N] is the loop variable, unbound
    ([None]) until the first iteration binds it; the result on [break] and on
    exhaustion is the last value bound. *)
Fixpoint enrich_loop (es : EigenSolver) (X0 : option Matrix) (tol : Q)
    (rng : list nat) (N : option nat) (Zb : Basis)
    : M POD (option nat * Basis) :=
  match rng with
  | [] => ret (N, Zb)
  | n :: rng' =>
      let '(eigvector, _) := get_eigenvector es n in
      snaps <- gets snapshots_matrix ;;
      let b := lincomb snaps eigvector in
      norm_b <- lift (math_sqrt (inner X0 b b)) ;;
      b' <- (if negb (Qeq_bool norm_b 0)
             then lift (array_div b norm_b) else ret b) ;;
      let Zb' := enrich Zb b' in
      re <- gets retained_energy ;;
      r <- lift (getitem re n) ;;
      if Qgtb r (1 - tol) then ret (Some n, Zb')
      else enrich_loop es X0 tol rng' (Some n) Zb'
  end.

(** [apply(Nmax, tol)], lines 50-99. *)
Definition apply (Nmax : Z) (tol : Q) : M POD (list Q * Basis * nat) :=
  X0 <- gets X ;;
  snaps <- gets snapshots_matrix ;;
  let correlation := correlation X0 snaps in
  let Zb : Basis := [] in
  let eigensolver := OnlineEigenSolver Zb correlation in
  Neigs <- gets (fun self => length (snapshots_matrix self)) ;;
  let Nmax := Z.min Nmax (Z.of_nat Neigs) in
  modify (set_eigenvalues (zeros Neigs)) ;;;
  read_eigenvalues eigensolver (range (Z.of_nat Neigs)) ;;;
  eigs <- gets eigenvalues ;;
  let total_energy := compute_total_energy (np_abs eigs) in
  modify (set_retained_energy (compute_retained_energy (np_abs eigs))) ;;;
  re <- gets retained_energy ;;
  (if Qgtb total_energy 0
   then re' <- lift (array_div re total_energy) ;;
        modify (set_retained_energy re')
   else modify (set_retained_energy (array_add re 1))) ;;;
  out <- enrich_loop eigensolver X0 tol (range Nmax) None Zb ;;
  let '(N, Zb) := out in
  match N with
  | None => raise UnboundLocalError
  | Some n =>
      let N := S n in
      eigs <- gets eigenvalues ;;
      ret (take N eigs, Zb, N)
  end.

End Apply.

(** The eigensolver object built by lines 56-68 for the engine [self]. *)
Definition solver_of (OnlineEigenSolver : Basis -> Matrix -> EigenSolver)
    (self : POD) : EigenSolver :=
  OnlineEigenSolver [] (correlation (X self) (snapshots_matrix self)).

(** The engine state once lines 72-83 have run without raising. *)
Definition with_energy (es : EigenSolver) (self : POD) : POD :=
  let eigs := solver_eigenvalues es (length (snapshots_matrix self)) in
  set_retained_energy (energy_fractions eigs) (set_eigenvalues eigs self).

(** ** Persisting the sequences (lines 107-121) *)

(** What one participant sees of the outside: the directories and files of
    the file system, and how many times it has passed [barrier()]. *)
Record World : Type := {
  fs_dirs : gset string;
  fs_files : gmap string string;
  barriers : nat
}.

(** The world in which the file at [path] holds [text]. *)
Definition set_file (path text : string) (w : World) : World :=
  {| fs_dirs := fs_dirs w;
     fs_files := <[path := text]> (fs_files w);
     barriers := barriers w |}.

Definition pass_barrier (w : World) : World :=
  {| fs_dirs := fs_dirs w; fs_files := fs_files w;
     barriers := S (barriers w) |}.

(** [open(path, "w")] in an existing directory creates or truncates the
    file; in a missing directory it raises. *)
Definition open_w (dir path : string) : M World unit :=
  fun w =>
    if decide (dir ∈ fs_dirs w)
    then (Ok tt, set_file path EmptyString w)
    else (Raise FileNotFoundError, w).

(** [outfile.write(text)] appends to the file; leaving the [with] block,
    normally or by an exception, keeps what was written. *)
Definition write (path text : string) : M World unit :=
  modify (fun w =>
    set_file path (default EmptyString (fs_files w !! path) +:+ text) w).

(** [self.mpi_comm.barrier()]. *)
Definition barrier : M World unit := modify pass_barrier.

(** [str(i)] on a non-negative int. *)
Definition str_int (i : nat) : string := pretty i.

Definition newline : string := String (Ascii.ascii_of_nat 10) EmptyString.

Section Save.

(** [is_io_process] of [rbnics.utils.mpi] and [str] on a numpy float are
    outside the source at hand. *)
Variable is_io_process : Comm -> bool.
Variable str_float : Q -> string.

(** One line of either file. *)
Definition line (i : nat) (v : Q) : string :=
  str_int i +:+ " " +:+ str_float v +:+ newline.

(** The loop of lines 111-112 (and 119-120) over the array [vals]. *)
Fixpoint write_lines (path : string) (vals : list Q) (rng : list nat)
    : M World unit :=
  match rng with
  | [] => ret tt
  | i :: rng' =>
      v <- lift (getitem vals i) ;;
      write path (line i v) ;;;
      write_lines path vals rng'
  end.

Definition save_eigenvalues_file (self : POD)
    (output_directory eigenvalues_file : string) : M World unit :=
  (if is_io_process (mpi_comm self)
   then let N := length (snapshots_matrix self) in
        let path := output_directory +:+ "/" +:+ eigenvalues_file in
        open_w output_directory path ;;;
        write_lines path (eigenvalues self) (range (Z.of_nat N))
   else ret tt) ;;;
  barrier.

Definition save_retained_energy_file (self : POD)
    (output_directory retained_energy_file : string) : M World unit :=
  (if is_io_process (mpi_comm self)
   then let N := length (snapshots_matrix self) in
        let path := output_directory +:+ "/" +:+ retained_energy_file in
        open_w output_directory path ;;;
        write_lines path (retained_energy self) (range (Z.of_nat N))
   else ret tt) ;;;
  barrier.

End Save.

(** The text of the first [n] lines for the array [vals]. *)
Definition lines_of (str_float : Q -> string) (vals : list Q) (n : nat)
    : list string :=
  imap (line str_float) (take n vals).

Definition concat_lines (ls : list string) : string :=
  foldr String.append EmptyString ls.

(** ** Online affine expansion storage (numpy backend) *)

(** A dense-matrix object.  Python objects have an identity: [oid] tells two
    objects apart even when they hold equal values. *)
Record MatObj (Mat : Type) : Type := { oid : nat; value : Mat }.
Arguments oid {Mat} _.
Arguments value {Mat} _.

(** The instance: the content array of the basic storage, the cached view
    ([None] when invalidated), and the number of matrix objects created so
    far, which names the next one. *)
Record Storage (Content Mat : Type) : Type := {
  _content : Content;
  _content_as_matrix : option (MatObj Mat);
  created : nat
}.
Arguments _content {Content Mat} _.
Arguments _content_as_matrix {Content Mat} _.
Arguments created {Content Mat} _.

Section AffineExpansionStorage.

Variables Content Key Item Mat : Type.

(** [AffineExpansionStorage_Base], the basic online storage, is outside the
    source at hand: its [__setitem__] and [load] are arbitrary computations
    on the content array, which may raise.  So is [numpy.asmatrix]. *)
Variable Base_setitem : Key -> Item -> M Content unit.
Variable Base_load : string -> string -> M Content unit.
Variable asmatrix : Content -> Mat.

Definition set_cache (c : option (MatObj Mat)) (self : Storage Content Mat)
    : Storage Content Mat :=
  {| _content := _content self; _content_as_matrix := c;
     created := created self |}.

(** A method of the base class run on [self]. *)
Definition on_content {A} (c : M Content A) : M (Storage Content Mat) A :=
  fun self =>
    let '(r, content) := c (_content self) in
    (r, {| _content := content;
           _content_as_matrix := _content_as_matrix self;
           created := created self |}).

(** [AffineExpansionStorageContent_AsMatrix(content)]: a new matrix
    object. *)
Definition AffineExpansionStorageContent_AsMatrix (content : Content)
    : M (Storage Content Mat) (MatObj Mat) :=
  fun self =>
    (Ok {| oid := created self; value := asmatrix content |},
     {| _content := _content self;
        _content_as_matrix := _content_as_matrix self;
        created := S (created self) |}).

(** [__init__] of a new storage over the content the base class built. *)
Definition new_storage (content : Content) : Storage Content Mat :=
  {| _content := content; _content_as_matrix := None; created := 0 |}.

Definition __setitem__ (key : Key) (item : Item)
    : M (Storage Content Mat) unit :=
  on_content (Base_setitem key item) ;;;
  modify (set_cache None).

(** Returns the attribute, as the source does. *)
Definition as_matrix : M (Storage Content Mat) (option (MatObj Mat)) :=
  cache <- gets _content_as_matrix ;;
  (match cache with
   | None =>
       content <- gets _content ;;
       m <- AffineExpansionStorageContent_AsMatrix content ;;
       modify (set_cache (Some m))
   | Some _ => ret tt
   end) ;;;
  gets _content_as_matrix.

Definition load (directory filename : string)
    : M (Storage Content Mat) unit :=
  on_content (Base_load directory filename) ;;;
  modify (set_cache None) ;;;
  as_matrix ;;;
  ret tt.

(** Sequences of calls on one instance; an exception ends the sequence. *)
Inductive op : Type :=
| OpSetItem (key : Key) (item : Item)
| OpLoad (directory filename : string)
| OpAsMatrix.

Definition run_op (o : op) : M (Storage Content Mat) unit :=
  match o with
  | OpSetItem key item => __setitem__ key item
  | OpLoad directory filename => load directory filename
  | OpAsMatrix => as_matrix ;;; ret tt
  end.

Fixpoint run_ops (os : list op) : M (Storage Content Mat) unit :=
  match os with
  | [] => ret tt
  | o :: os' => run_op o ;;; run_ops os'
  end.

(** The cached view, when present, is the dense assembly of the current
    content, and is an object already created. *)
Definition coherent (self : Storage Content Mat) : Prop :=
  forall m, _content_as_matrix self = Some m ->
    value m = asmatrix (_content self) /\ (oid m < created self)%nat.

End AffineExpansionStorage.

Arguments OpSetItem {Key Item} key item.
Arguments OpLoad {Key Item} directory filename.
Arguments OpAsMatrix {Key Item}.

(** ** Concrete instances, for running the model *)

(** A square root on rationals, rounded down to six decimal places:
    [sqrt (p/q) = sqrt (p*q) / q]. *)
Definition sqrt_fix (x : Q) : Q :=
  Z.sqrt (Qnum x * Z.pos (Qden x) * 10 ^ 12) # (Qden x * 1000000).

(** An eigensolver that answers from a table of eigenpairs. *)
Definition table_solver (eigs : list (Q * Q)) (vecs : list Vector)
    : Basis -> Matrix -> EigenSolver :=
  fun _ _ =>
    {| get_eigenvalue := fun i => nth i eigs (0, 0);
       get_eigenvector := fun i => (nth i vecs [], []) |}.

Definition comm0 : Comm := {| rank := 0 |}.

(** The engine after construction and the storing of the given snapshots. *)
Definition with_snapshots (X0 : option Matrix) (snaps : list Vector) : POD :=
  set_snapshots_matrix snaps (__init__ X0 comm0).

(** Rank 0 does the I/O. *)
Definition rank0_is_io (c : Comm) : bool := Nat.eqb (rank c) 0.

(** A rendering of rationals as [numerator/denominator]. *)
Definition str_ratio (q : Q) : string :=
  pretty (Qnum q) +:+ "/" +:+ pretty (Z.pos (Qden q)).

Definition world0 : World :=
  {| fs_dirs := {["out"%string]}; fs_files := ∅; barriers := 0 |}.

(** A basic storage of scalars: bounded writes, and loads from a table of
    stored contents. *)
Definition list_setitem (key : nat) (item : Q) : M (list Q) unit :=
  fun content =>
    if decide (key < length content)%nat
    then (Ok tt, <[key := item]> content)
    else (Raise IndexError, content).

Definition table_load (disk : gmap string (list Q))
    (directory filename : string) : M (list Q) unit :=
  fun content =>
    match disk !! (directory +:+ "/" +:+ filename) with
    | Some stored_content => (Ok tt, stored_content)
    | None => (Raise FileNotFoundError, content)
    end.

Definition row_matrix (content : list Q) : Matrix := [content].

Definition disk0 : gmap string (list Q) := {["out/theta"%string := [7; 8]]}.

(** ** Printing the eigenvalues (lines 101-105) *)

(** [print(text)]: the console is the list of the lines printed so far. *)
Definition print (text : string) : M (list string) unit :=
  modify (fun out => out ++ [text]).

Section Print.

Variable str_float : Q -> string.

(** The text of line 105 for index [i] and value [v]. *)
Definition label (i : nat) (v : Q) : string :=
  "lambda_" +:+ str_int i +:+ " = " +:+ str_float v.

Fixpoint print_lines (eigs : list Q) (rng : list nat) : M (list string) unit :=
  match rng with
  | [] => ret tt
  | i :: rng' =>
      v <- lift (getitem eigs i) ;;
      print (label i v) ;;;
      print_lines eigs rng'
  end.

(** [print_eigenvalues(N=None)]: [None] stands for the number of stored
    snapshots. *)
Definition print_eigenvalues (self : POD) (N : option Z)
    : M (list string) unit :=
  let N := match N with
           | None => Z.of_nat (length (snapshots_matrix self))
           | Some n => n
           end in
  print_lines (eigenvalues self) (range N).

End Print.

(** ** Copy construction of the affine expansion storage (lines 40-43) *)

Section AffineExpansionStorageCopy.

Variables Content Mat : Type.

(** The content array that [AffineExpansionStorage_Base.__init__] builds
    from the storage it is given. *)
Variable Base_init_from : Content -> Content.

(** [__init__(arg1)] on another storage: the cached view of [arg1] is taken
    over as it is, by reference.  The count of created objects is that of
    the interpreter and carries over. *)
Definition copy_storage (arg1 : Storage Content Mat) : Storage Content Mat :=
  {| _content := Base_init_from (_content arg1);
     _content_as_matrix := _content_as_matrix arg1;
     created := created arg1 |}.

End AffineExpansionStorageCopy.

(** The calls of a sequence that write to the content. *)
Definition is_mutation {Key Item} (o : op Key Item) : bool :=
  match o with
  | OpSetItem _ _ | OpLoad _ _ => true
  | OpAsMatrix => false
  end.

Definition mutations {Key Item} (os : list (op Key Item)) : nat :=
  foldr (fun o n => if is_mutation o then S n else n) 0%nat os.

(** What is left of the budget of assemblies: one if the cache is empty. *)
Definition pending {Content Mat} (s : Storage Content Mat) : nat :=
  match _content_as_matrix s with None => 1 | Some _ => 0 end.

(** A base class whose failing calls leave the content as it was. *)
Definition atomic_failure {Content A} (c : M Content A) : Prop :=
  forall content e content', c content = (Raise e, content') ->
                             content' = content.

(** ** Mesh motion (rbnics/backends/dolfin/mesh_motion.py) *)

Module MeshMotion.

(** Exceptions of this class: those above, and two more built-in ones. *)
Inductive mexn : Type :=
| KeyError
| AttributeError
| Builtin (e : exn).

Inductive mresult (A : Type) : Type :=
| MOk (a : A)
| MRaise (e : mexn).
Arguments MOk {A} a.
Arguments MRaise {A} e.

Definition mbind {A B} (c : mresult A) (k : A -> mresult B) : mresult B :=
  match c with
  | MOk a => k a
  | MRaise e => MRaise e
  end.

Notation "x <~ c ;; k" := (mbind c (fun x => k))
  (at level 100, c at next level, right associativity).

Definition massert (b : bool) : mresult unit :=
  if b then MOk tt else MRaise (Builtin AssertionError).

(** What dolfin and MPI provide: the cells of the mesh by index, the
    subdomain marker of each cell, the dof map of the deformation space
    (dofs of a cell, local-to-global numbering, ownership range, number of
    local entries of a function vector), the geometric dimension, the two
    reductions over the participants, Lagrange interpolation of an
    expression (given by its component strings) into a dof vector, and
    [ALE.move] on the vertex coordinates. *)
Record Dolfin : Type := {
  cells : list nat;
  subdomains : nat -> nat;
  cell_dofs : nat -> list nat;
  local_to_global_index : nat -> nat;
  ownership_range : nat * nat;
  ndofs : nat;
  geometry_dim : nat;
  allreduce_min : Z -> Z;
  allreduce_max : Z -> Z;
  interpolate : list string -> list Q;
  ALE_move : list (list Q) -> list Q -> list (list Q)
}.

(** The object: the coordinates of [self.mesh], their copy taken at
    construction, the dict from subdomain id to dofs, the shape
    parametrization, and the displacement expressions, an attribute that
    exists only once [init] has run. *)
Record t : Type := {
  coordinates : list (list Q);
  reference_coordinates : list (list Q);
  subdomain_id_to_deformation_dofs : gmap Z (list nat);
  shape_parametrization_expression : list (list string);
  displacement_expression : option (list (list string))
}.

Section WithDolfin.

Variable dolfin : Dolfin.

(** Lines 41-45: the dof is owned by this participant. *)
Definition owned (dof : nat) : bool :=
  let global_dof := local_to_global_index dolfin dof in
  (fst (ownership_range dolfin) <=? global_dof)%nat
  && (global_dof <? snd (ownership_range dolfin))%nat.

(** Lines 39-46: the inner loop over the dofs of one cell. *)
Fixpoint append_owned (subdomain_id : Z) (dofs : list nat)
    (d : gmap Z (list nat)) : mresult (gmap Z (list nat)) :=
  match dofs with
  | [] => MOk d
  | dof :: dofs' =>
      d' <~ (if owned dof
             then match d !! subdomain_id with
                  | Some l => MOk (<[subdomain_id := l ++ [dof]]> d)
                  | None => MRaise KeyError
                  end
             else MOk d) ;;
      append_owned subdomain_id dofs' d'
  end.

(** Lines 34-46: the loop over the cells. *)
Fixpoint visit_cells (cs : list nat) (d : gmap Z (list nat))
    : mresult (gmap Z (list nat)) :=
  match cs with
  | [] => MOk d
  | cell :: cs' =>
      let subdomain_id := (Z.of_nat (subdomains dolfin cell) - 1)%Z in
      let d1 := if decide (is_Some (d !! subdomain_id)) then d
                else <[subdomain_id := []]> d in
      d2 <~ append_owned subdomain_id (cell_dofs dolfin cell) d1 ;;
      visit_cells cs' d2
  end.

(** [d.keys()], and [min], [max] of a sequence of ints: [ValueError] on an
    empty one. *)
Definition keys (d : gmap Z (list nat)) : list Z := (map_to_list d).*1.

Definition py_min (l : list Z) : mresult Z :=
  match l with
  | [] => MRaise (Builtin ValueError)
  | x :: l' => MOk (foldl Z.min x l')
  end.

Definition py_max (l : list Z) : mresult Z :=
  match l with
  | [] => MRaise (Builtin ValueError)
  | x :: l' => MOk (foldl Z.max x l')
  end.

(** [range(a, b)]. *)
Definition zrange (a b : Z) : list Z :=
  map (fun i => (a + Z.of_nat i)%Z) (seq 0 (Z.to_nat (b - a))).

(** Lines 52-54: empty lists for the ids this participant has not seen. *)
Fixpoint fill (ids : list Z) (d : gmap Z (list nat)) : gmap Z (list nat) :=
  match ids with
  | [] => d
  | subdomain_id :: ids' =>
      fill ids' (if decide (is_Some (d !! subdomain_id)) then d
                 else <[subdomain_id := []]> d)
  end.

(** [__init__], lines 27-61; [coords] is [self.mesh.coordinates()]. *)
Definition __init__ (coords : list (list Q))
    (shape_parametrization_expression : list (list string)) : mresult t :=
  let reference_coordinates := coords in
  d <~ visit_cells (cells dolfin) ∅ ;;
  local_min <~ py_min (keys d) ;;
  let min_subdomain_id := allreduce_min dolfin local_min in
  local_max <~ py_max (keys d) ;;
  let max_subdomain_id := allreduce_max dolfin local_max in
  let d := fill (zrange min_subdomain_id (max_subdomain_id + 1)) d in
  least <~ py_min (keys d) ;;
  _ <~ massert (least =? 0)%Z ;;
  greatest <~ py_max (keys d) ;;
  _ <~ massert (Z.of_nat (length (keys d)) =? greatest + 1)%Z ;;
  _ <~ massert (length shape_parametrization_expression
                =? length (keys d))%nat ;;
  MOk {| coordinates := coords;
         reference_coordinates := reference_coordinates;
         subdomain_id_to_deformation_dofs := d;
         shape_parametrization_expression := shape_parametrization_expression;
         displacement_expression := None |}.

Definition set_displacement_expression (v : option (list (list string)))
    (self : t) : t :=
  {| coordinates := coordinates self;
     reference_coordinates := reference_coordinates self;
     subdomain_id_to_deformation_dofs := subdomain_id_to_deformation_dofs self;
     shape_parametrization_expression := shape_parametrization_expression self;
     displacement_expression := v |}.

Definition set_coordinates (v : list (list Q)) (self : t) : t :=
  {| coordinates := v;
     reference_coordinates := reference_coordinates self;
     subdomain_id_to_deformation_dofs := subdomain_id_to_deformation_dofs self;
     shape_parametrization_expression := shape_parametrization_expression self;
     displacement_expression := displacement_expression self |}.

(** Lines 71-75: from the component [T_i] to the displacement
    [T_i - x[i]]. *)
Definition displacement_component (component : nat) (T : string) : string :=
  T +:+ " - x[" +:+ str_int component +:+ "]".

(** Lines 68-84: the loop of [init]; the outcome comes with the object as
    the loop left it. *)
Fixpoint init_loop (exprs : list (list string)) (self : t)
    : mresult unit * t :=
  match exprs with
  | [] => (MOk tt, self)
  | shape_parametrization_expression_on_subdomain :: exprs' =>
      if (length shape_parametrization_expression_on_subdomain
          =? geometry_dim dolfin)%nat
      then
        let displacement_expression_on_subdomain :=
          imap displacement_component
               shape_parametrization_expression_on_subdomain in
        match displacement_expression self with
        | Some built =>
            init_loop exprs'
              (set_displacement_expression
                 (Some (built ++ [displacement_expression_on_subdomain]))
                 self)
        | None => (MRaise AttributeError, self)
        end
      else (MRaise (Builtin AssertionError), self)
  end.

Definition init (self : t) : mresult unit * t :=
  init_loop (shape_parametrization_expression self)
            (set_displacement_expression (Some []) self).

(** Line 102: [dst[dofs] = src[dofs]]; the right-hand side is read first. *)
Fixpoint read_at (src : list Q) (dofs : list nat) : mresult (list Q) :=
  match dofs with
  | [] => MOk []
  | dof :: dofs' =>
      match src !! dof with
      | Some v => vs <~ read_at src dofs' ;; MOk (v :: vs)
      | None => MRaise (Builtin IndexError)
      end
  end.

Fixpoint write_at (dst : list Q) (dofs : list nat) (vals : list Q)
    : mresult (list Q) :=
  match dofs, vals with
  | dof :: dofs', v :: vals' =>
      if decide (dof < length dst)%nat
      then write_at (<[dof := v]> dst) dofs' vals'
      else MRaise (Builtin IndexError)
  | _, _ => MOk dst
  end.

(** Lines 98-102: the loop over the subdomains, from subdomain index
    [subdomain]. *)
Fixpoint displace (self : t) (subdomain : nat) (exprs : list (list string))
    (displacement : list Q) : mresult (list Q) :=
  match exprs with
  | [] => MOk displacement
  | displacement_expression_on_subdomain :: exprs' =>
      let displacement_function_on_subdomain :=
        interpolate dolfin displacement_expression_on_subdomain in
      match subdomain_id_to_deformation_dofs self !! Z.of_nat subdomain with
      | None => MRaise KeyError
      | Some subdomain_dofs =>
          vals <~ read_at displacement_function_on_subdomain subdomain_dofs ;;
          displacement' <~ write_at displacement subdomain_dofs vals ;;
          displace self (S subdomain) exprs' displacement'
      end
  end.

Definition compute_displacement (self : t) : mresult (list Q) :=
  let displacement := zeros (ndofs dolfin) in
  match displacement_expression self with
  | None => MRaise AttributeError
  | Some exprs => displace self 0 exprs displacement
  end.

Definition move_mesh (self : t) : mresult unit * t :=
  match compute_displacement self with
  | MOk displacement =>
      (MOk tt,
       set_coordinates (ALE_move dolfin (coordinates self) displacement) self)
  | MRaise e => (MRaise e, self)
  end.

(** Line 93: the coordinate array of a mesh keeps its shape (moving a mesh
    displaces its vertices), so the assignment through [[:]] overwrites
    every entry. *)
Definition reset_reference (self : t) : mresult unit * t :=
  (MOk tt, set_coordinates (reference_coordinates self) self).

(** The owned dofs of the cells of [cs] whose marker is [subdomain_id + 1],
    in cell order, a dof once for each such cell that has it. *)
Definition marked (subdomain_id : Z) (cell : nat) : bool :=
  (Z.of_nat (subdomains dolfin cell) - 1 =? subdomain_id)%Z.

Definition owned_dofs_of (cs : list nat) (subdomain_id : Z) : list nat :=
  flat_map (fun cell =>
              if marked subdomain_id cell
              then List.filter owned (cell_dofs dolfin cell) else [])
           cs.

Definition seen (cs : list nat) (subdomain_id : Z) : bool :=
  existsb (marked subdomain_id) cs.

(** The leading entries of the shape parametrization that have one
    component per geometric dimension. *)
Definition well_sized (e : list string) : bool :=
  (length e =? geometry_dim dolfin)%nat.

Fixpoint sized_prefix (exprs : list (list string)) : list (list string) :=
  match exprs with
  | [] => []
  | e :: exprs' => if well_sized e then e :: sized_prefix exprs' else []
  end.

(** Calls of [move_mesh] in a row; a failing one leaves the object as it
    was and the next one is tried all the same. *)
Fixpoint move_repeatedly (n : nat) (self : t) : t :=
  match n with
  | O => self
  | S n' => move_repeatedly n' (move_mesh self).2
  end.

End WithDolfin.

(** A mesh of two cells sharing an edge, one subdomain each, with one dof
    pair per vertex and everything owned: for running the model. *)
Definition two_cells : Dolfin :=
  {| cells := [0; 1]%nat;
     subdomains := fun cell => S cell;
     cell_dofs := fun cell =>
       match cell with
       | O => [0; 1; 2; 3]%nat
       | _ => [2; 3; 4; 5]%nat
       end;
     local_to_global_index := fun dof => dof;
     ownership_range := (0, 6)%nat;
     ndofs := 6;
     geometry_dim := 2;
     allreduce_min := fun x => x;
     allreduce_max := fun x => x;
     interpolate := fun e =>
       repeat (inject_Z (Z.of_nat (String.length (hd EmptyString e)))) 6;
     ALE_move := fun coords displacement =>
       map (map (fun x => x + default 0 (displacement !! 0%nat))) coords |}.

Definition square : list (list Q) := [[0; 0]; [1; 0]; [1; 1]; [0; 1]].

Definition stretch : list (list string) :=
  [["2*x[0]"; "x[1]"]; ["x[0]"; "mu[0]*x[1]"]]%string.

End MeshMotion.

(** * Properties of the POD engine *)

(** ** Comparisons and array arithmetic *)

Lemma Qgtb_true (a b : Q) : Qgtb a b = true <-> b < a.
Proof.
  unfold Qgtb. rewrite negb_true_iff. split.
  - intros H. apply Qnot_le_lt. intros Hle.
    apply Qle_bool_iff in Hle. congruence.
  - intros H. destruct (Qle_bool a b) eqn:E; [|reflexivity].
    apply Qle_bool_iff in E. lra.
Qed.

Lemma Qgtb_false (a b : Q) : Qgtb a b = false <-> a <= b.
Proof.
  unfold Qgtb. rewrite negb_false_iff. apply Qle_bool_iff.
Qed.

Lemma array_div_pos (a : list Q) (d : Q) :
  0 < d -> array_div a d = Ok (map (fun x => x / d) a).
Proof.
  intros Hd. unfold array_div.
  destruct (Qeq_bool d 0) eqn:E; [|reflexivity].
  apply Qeq_bool_iff in E. lra.
Qed.

Lemma total_energy_from (a : list Q) (acc : Q) :
  fold_left Qplus a acc == acc + sumQ a.
Proof.
  revert acc. induction a as [|x a IH]; intros acc; simpl.
  - lra.
  - rewrite IH. lra.
Qed.

Lemma total_energy_sum (a : list Q) : compute_total_energy a == sumQ a.
Proof. unfold compute_total_energy. rewrite total_energy_from. lra. Qed.

Lemma sumQ_nonneg (a : list Q) : Forall (fun x => 0 <= x) a -> 0 <= sumQ a.
Proof.
  induction 1 as [|x a Hx _ IH]; simpl; lra.
Qed.

Lemma cumsum_from_bounds (a : list Q) (acc : Q) :
  Forall (fun x => 0 <= x) a ->
  Forall (fun r => acc <= r /\ r <= acc + sumQ a) (cumsum_from acc a).
Proof.
  intros Ha. revert acc.
  induction Ha as [|x a Hx Ha IH]; intros acc; simpl; constructor.
  - pose proof (sumQ_nonneg a Ha). lra.
  - eapply Forall_impl; [apply IH|]. simpl. intros r [H1 H2]. lra.
Qed.

Lemma retained_energy_bounds (a : list Q) :
  Forall (fun x => 0 <= x) a ->
  Forall (fun r => 0 <= r /\ r <= compute_total_energy a)
         (compute_retained_energy a).
Proof.
  intros Ha. destruct Ha as [|x a Hx Ha]; simpl; constructor.
  - rewrite total_energy_sum. simpl.
    pose proof (sumQ_nonneg a Ha). lra.
  - eapply Forall_impl; [apply (cumsum_from_bounds a x Ha)|].
    simpl. intros r [H1 H2]. rewrite total_energy_sum. simpl. lra.
Qed.

Lemma np_abs_nonneg (a : list Q) : Forall (fun x => 0 <= x) (np_abs a).
Proof.
  unfold np_abs. induction a; simpl; constructor; auto using Qabs_nonneg.
Qed.

Lemma cumsum_from_length (a : list Q) (acc : Q) :
  length (cumsum_from acc a) = length a.
Proof. revert acc. induction a; intros; simpl; auto. Qed.

Lemma retained_energy_length (a : list Q) :
  length (compute_retained_energy a) = length a.
Proof. destruct a; simpl; auto using cumsum_from_length. Qed.

Lemma energy_fractions_length (eigs : list Q) :
  length (energy_fractions eigs) = length eigs.
Proof.
  unfold energy_fractions, array_add, np_abs.
  destruct (Qgtb _ 0); rewrite length_map, retained_energy_length, length_map;
    reflexivity.
Qed.



(** ** Reading the eigenvalues (lines 72-76) *)

Lemma set_eigenvalues_id (self : POD) :
  set_eigenvalues (eigenvalues self) self = self.
Proof. destruct self; reflexivity. Qed.

Lemma read_eigenvalues_ok (es : EigenSolver) (rng : list nat) (self : POD) :
  Forall (real_at es) rng ->
  read_eigenvalues es rng self
  = (Ok tt, set_eigenvalues (stored es rng (eigenvalues self)) self).
Proof.
  intros Hreal. revert self.
  induction Hreal as [|i rng Hi _ IH]; intros self; simpl.
  - unfold ret. now rewrite set_eigenvalues_id.
  - unfold real_at in Hi.
    destruct (get_eigenvalue es i) as [re_i im_i] eqn:Ei. simpl in *.
    unfold bind, assert, modify. rewrite Hi. simpl. rewrite IH. reflexivity.
Qed.

Lemma read_eigenvalues_fail (es : EigenSolver) (rng : list nat) (self : POD) :
  Exists (fun i => ~ real_at es i) rng ->
  exists ev, read_eigenvalues es rng self
             = (Raise AssertionError, set_eigenvalues ev self).
Proof.
  intros Hex. revert self.
  induction rng as [|i rng IH]; intros self.
  - inversion Hex.
  - simpl. unfold real_at in *.
    destruct (get_eigenvalue es i) as [re_i im_i] eqn:Ei.
    unfold bind, assert, modify.
    destruct (isclose im_i 0) eqn:Eim; simpl.
    + apply Exists_cons in Hex as [Hbad|Hex].
      * rewrite Ei in Hbad. simpl in Hbad. congruence.
      * destruct (IH Hex (set_eigenvalues (<[i:=re_i]> (eigenvalues self)) self))
          as [ev Hev].
        exists ev. rewrite Hev. reflexivity.
    + exists (eigenvalues self). now rewrite set_eigenvalues_id.
Qed.

Lemma stored_seq (es : EigenSolver) (k a : nat) (done : list Q) :
  length done = a ->
  stored es (seq a k) (done ++ zeros k)
  = done ++ map (fun i => (get_eigenvalue es i).1) (seq a k).
Proof.
  revert a done. induction k as [|k IH]; intros a done Hlen; simpl.
  - reflexivity.
  - replace (<[a:=(get_eigenvalue es a).1]> (done ++ 0 :: zeros k))
      with ((done ++ [(get_eigenvalue es a).1]) ++ zeros k).
    + rewrite IH by (rewrite length_app; simpl; lia).
      now rewrite <- app_assoc.
    + rewrite <- app_assoc. simpl. subst a.
      rewrite <- (Nat.add_0_r (length done)) at 2.
      now rewrite insert_app_r.
Qed.

Lemma stored_range (es : EigenSolver) (n : nat) :
  stored es (range (Z.of_nat n)) (zeros n) = solver_eigenvalues es n.
Proof.
  unfold range. rewrite Nat2Z.id. apply (stored_seq es n 0%nat []). reflexivity.
Qed.

Lemma eigs_real_range (es : EigenSolver) (n : nat) :
  eigs_real es n <-> Forall (real_at es) (range (Z.of_nat n)).
Proof.
  unfold range, eigs_real. rewrite Nat2Z.id, Forall_forall. split.
  - intros H i Hi. apply elem_of_seq in Hi. apply H. lia.
  - intros H i Hi. apply H. apply elem_of_seq. lia.
Qed.

Lemma solver_eigenvalues_length (es : EigenSolver) (n : nat) :
  length (solver_eigenvalues es n) = n.
Proof. unfold solver_eigenvalues. now rewrite length_map, length_seq. Qed.

(** ** The enrichment loop (lines 85-96) *)

Section ApplyFacts.

Variable sqrt : Q -> Q.
Variable OnlineEigenSolver : Basis -> Matrix -> EigenSolver.

Lemma math_sqrt_nonneg (x : Q) : 0 <= x -> math_sqrt sqrt x = Ok (sqrt x).
Proof.
  intros Hx. unfold math_sqrt.
  destruct (Qgtb 0 x) eqn:E; [|reflexivity].
  apply Qgtb_true in E. lra.
Qed.

(** The guarded normalisation of lines 92-93 never divides by zero. *)
Lemma normalise_guarded (b : Vector) (norm_b : Q) (self : POD) :
  (if negb (Qeq_bool norm_b 0)
   then lift (array_div b norm_b) else ret b) self
  = (Ok (if Qeq_bool norm_b 0 then b else map (fun x => x / norm_b) b), self).
Proof.
  unfold array_div. destruct (Qeq_bool norm_b 0); reflexivity.
Qed.

Lemma enrich_loop_ok (es : EigenSolver) (X0 : option Matrix) (tol : Q)
    (rng : list nat) (N : option nat) (Zb : Basis) (self : POD) :
  psd X0 ->
  Forall (fun n => (n < length (retained_energy self))%nat) rng ->
  enrich_loop sqrt es X0 tol rng N Zb self
  = (Ok (stop_index (retained_energy self) tol rng N,
         Zb ++ map (candidate sqrt es X0 (snapshots_matrix self))
                   (visited (retained_energy self) tol rng)),
     self).
Proof.
  intros Hpsd Hrng. revert N Zb.
  induction Hrng as [|n rng Hn _ IH]; intros N Zb; simpl.
  - unfold ret. now rewrite app_nil_r.
  - unfold candidate at 1.
    destruct (get_eigenvector es n) as [eigvector other] eqn:Ev. simpl.
    unfold bind at 1, gets at 1. unfold bind at 1.
    unfold lift at 1. rewrite math_sqrt_nonneg by apply Hpsd.
    unfold bind at 1. rewrite normalise_guarded.
    unfold bind at 1, gets at 1. unfold bind at 1, lift at 1, getitem.
    apply lookup_lt_is_Some_2 in Hn as [r Hr].
    unfold cross. rewrite Hr.
    destruct (Qgtb r (1 - tol)).
    + reflexivity.
    + rewrite IH. unfold enrich. now rewrite <- app_assoc.
Qed.

(** Whatever the inputs, the loop leaves [self] alone and can only fail in
    [math.sqrt] or in the indexing of line 95. *)
Lemma enrich_loop_exn (es : EigenSolver) (X0 : option Matrix) (tol : Q)
    (rng : list nat) (N : option nat) (Zb : Basis) (self : POD)
    (r : result (option nat * Basis)) (s : POD) :
  enrich_loop sqrt es X0 tol rng N Zb self = (r, s) ->
  s = self /\ forall e, r = Raise e -> e = ValueError \/ e = IndexError.
Proof.
  revert N Zb. induction rng as [|n rng IH]; intros N Zb; simpl.
  - intros [= <- <-]. split; [reflexivity|]. discriminate.
  - destruct (get_eigenvector es n) as [eigvector other].
    unfold bind at 1, gets at 1. unfold bind at 1, lift at 1.
    unfold math_sqrt.
    destruct (Qgtb 0 _).
    { intros [= <- <-]. split; [reflexivity|]. intros e [= <-]. now left. }
    unfold bind at 1. rewrite normalise_guarded.
    unfold bind at 1, gets at 1. unfold bind at 1, lift at 1, getitem.
    destruct (retained_energy self !! n) as [x|].
    2:{ intros [= <- <-]. split; [reflexivity|]. intros e [= <-]. now right. }
    destruct (Qgtb x (1 - tol)).
    + intros [= <- <-]. split; [reflexivity|]. discriminate.
    + apply IH.
Qed.

Lemma stop_index_seq (re : list Q) (tol : Q) (k a : nat) (N : option nat) :
  exists n,
    stop_index re tol (seq a (S k)) N = Some n /\
    (a <= n <= a + k)%nat /\
    visited re tol (seq a (S k)) = seq a (S (n - a)) /\
    (forall j, (a <= j < n)%nat -> cross re tol j = false) /\
    (cross re tol n = true \/ n = (a + k)%nat).
Proof.
  revert a N. induction k as [|k IH]; intros a N.
  - exists a. simpl. replace (a - a)%nat with 0%nat by lia.
    destruct (cross re tol a); repeat split; auto with lia.
  - change (seq a (S (S k))) with (a :: seq (S a) (S k)).
    cbn [stop_index visited].
    destruct (cross re tol a) eqn:Ea.
    + exists a. replace (a - a)%nat with 0%nat by lia.
      repeat split; auto with lia.
    + destruct (IH (S a) (Some a)) as (n & Hs & Hn & Hv & Hlow & Hend).
      exists n. rewrite Hs, Hv.
      replace (S (n - a)) with (S (S (n - S a))) by lia.
      repeat split; auto with lia.
      * intros j Hj. destruct (decide (j = a)) as [->|]; [exact Ea|].
        apply Hlow. lia.
      * destruct Hend as [Hc | ->]; [now left | right; lia].
Qed.

Lemma stop_index_nil (re : list Q) (tol : Q) (N : option nat) :
  stop_index re tol [] N = N.
Proof. reflexivity. Qed.

(** ** [apply] as a whole *)

Lemma apply_assert_fail (Nmax : Z) (tol : Q) (self : POD) :
  let es := solver_of OnlineEigenSolver self in
  Exists (fun i => ~ real_at es i)
         (range (Z.of_nat (length (snapshots_matrix self)))) ->
  exists s, apply sqrt OnlineEigenSolver Nmax tol self
            = (Raise AssertionError, s).
Proof.
  intros es Hbad. unfold apply.
  unfold bind at 1, gets at 1. unfold bind at 1, gets at 1.
  unfold bind at 1, gets at 1. unfold bind at 1, modify at 1.
  unfold bind at 1.
  destruct (read_eigenvalues_fail es _
              (set_eigenvalues (zeros (length (snapshots_matrix self))) self)
              Hbad) as [ev Hev].
  change (OnlineEigenSolver [] (correlation (X self) (snapshots_matrix self)))
    with es.
  rewrite Hev. eauto.
Qed.

Lemma apply_real (Nmax : Z) (tol : Q) (self : POD) :
  let es := solver_of OnlineEigenSolver self in
  let N := length (snapshots_matrix self) in
  eigs_real es N ->
  apply sqrt OnlineEigenSolver Nmax tol self
  = match enrich_loop sqrt es (X self) tol
            (range (Z.min Nmax (Z.of_nat N))) None [] (with_energy es self) with
    | (Ok (Some n, Zb), s) => (Ok (take (S n) (eigenvalues s), Zb, S n), s)
    | (Ok (None, _), s) => (Raise UnboundLocalError, s)
    | (Raise e, s) => (Raise e, s)
    end.
Proof.
  intros es N Hreal. apply eigs_real_range in Hreal. unfold apply.
  unfold bind at 1, gets at 1. unfold bind at 1, gets at 1.
  unfold bind at 1, gets at 1. unfold bind at 1, modify at 1.
  unfold bind at 1.
  change (OnlineEigenSolver [] (correlation (X self) (snapshots_matrix self)))
    with es.
  fold N. rewrite (read_eigenvalues_ok es _ _ Hreal).
  cbn [eigenvalues set_eigenvalues]. rewrite stored_range.
  unfold bind at 1, gets at 1. cbn [eigenvalues set_eigenvalues].
  unfold bind at 1, modify at 1. unfold bind at 1, gets at 1.
  cbn [retained_energy set_retained_energy].
  set (eigs := solver_eigenvalues es N).
  set (s2 := set_retained_energy _ _).
  assert (Hs3 : forall k : unit -> M POD (list Q * Basis * nat),
    bind (if Qgtb (compute_total_energy (np_abs eigs)) 0
          then bind (lift (array_div (compute_retained_energy (np_abs eigs))
                                     (compute_total_energy (np_abs eigs))))
                    (fun re' => modify (set_retained_energy re'))
          else modify (set_retained_energy
                         (array_add (compute_retained_energy (np_abs eigs)) 1)))
         k s2
    = k tt (with_energy es self)).
  { intros k. unfold with_energy, energy_fractions. fold N. fold eigs.
    destruct (Qgtb (compute_total_energy (np_abs eigs)) 0) eqn:E.
    - apply Qgtb_true in E. unfold bind, lift, modify.
      rewrite array_div_pos by exact E. reflexivity.
    - reflexivity. }
  rewrite Hs3. unfold bind at 1.
  destruct (enrich_loop _ _ _ _ _ _ _ _) as [[[[n|] Zb]|e] s]; reflexivity.
Qed.

Lemma with_energy_length (es : EigenSolver) (self : POD) :
  length (retained_energy (with_energy es self))
  = length (snapshots_matrix self).
Proof.
  unfold with_energy. cbn [retained_energy set_retained_energy].
  now rewrite energy_fractions_length, solver_eigenvalues_length.
Qed.

Lemma range_in_bounds (Nmax : Z) (N : nat) :
  Forall (fun n => (n < N)%nat) (range (Z.min Nmax (Z.of_nat N))).
Proof.
  unfold range. apply Forall_forall. intros n Hn.
  apply elem_of_seq in Hn. lia.
Qed.

(** Under the two contracts, [apply] is decided by the stopping index. *)
Lemma apply_run (Nmax : Z) (tol : Q) (self : POD) :
  let es := solver_of OnlineEigenSolver self in
  let N := length (snapshots_matrix self) in
  let self' := with_energy es self in
  let re := retained_energy self' in
  let rng := range (Z.min Nmax (Z.of_nat N)) in
  eigs_real es N -> psd (X self) ->
  apply sqrt OnlineEigenSolver Nmax tol self
  = match stop_index re tol rng None with
    | Some n =>
        (Ok (take (S n) (eigenvalues self'),
             map (candidate sqrt es (X self) (snapshots_matrix self))
                 (visited re tol rng),
             S n), self')
    | None => (Raise UnboundLocalError, self')
    end.
Proof.
  intros es N self' re rng Hreal Hpsd.
  rewrite (apply_real Nmax tol self Hreal). fold es N self'.
  rewrite enrich_loop_ok.
  - fold re rng. destruct (stop_index re tol rng None); reflexivity.
  - exact Hpsd.
  - unfold self'. rewrite with_energy_length. apply range_in_bounds.
Qed.

End ApplyFacts.

(** ** Facts on the crossing test and on the Euclidean form *)



Lemma dot_self_nonneg (v : Vector) : 0 <= dot v v.
Proof.
  unfold dot. induction v as [|x v IH]; simpl; [lra|].
  fold (zip_with Qmult v v). nra.
Qed.

Lemma dot_self_zero (v : Vector) :
  dot v v == 0 -> Forall (fun x => x == 0) v.
Proof.
  induction v as [|x v IH]; intros H; constructor.
  - pose proof (dot_self_nonneg v) as Hv. unfold dot in *. simpl in H. nra.
  - apply IH. pose proof (dot_self_nonneg v) as Hv.
    unfold dot in *. simpl in H. nra.
Qed.

Lemma euclidean_psd : psd None.
Proof. intros v. apply dot_self_nonneg. Qed.

Lemma euclidean_definite : definite None.
Proof. intros v. apply dot_self_zero. Qed.


(** ** Truncation rule of [apply] *)





(** ** Degenerate energy and zero tolerance *)







(** ** The assertion on the eigenvalues and the unbound loop variable *)

Lemma not_real_Exists (es : EigenSolver) (n : nat) :
  (exists i, (i < n)%nat /\ isclose (get_eigenvalue es i).2 0 = false) <->
  Exists (fun i => ~ real_at es i) (range (Z.of_nat n)).
Proof.
  unfold range, real_at. rewrite Nat2Z.id, Exists_exists. split.
  - intros (i & Hi & Hbad). exists i. split; [apply elem_of_seq; lia|].
    congruence.
  - intros (i & Hi & Hbad). apply elem_of_seq in Hi. exists i.
    split; [lia|]. now destruct (isclose _ 0).
Qed.

Lemma eigs_real_dec (es : EigenSolver) (n : nat) :
  eigs_real es n \/
  exists i, (i < n)%nat /\ isclose (get_eigenvalue es i).2 0 = false.
Proof.
  induction n as [|n [IH | (i & Hi & Hbad)]].
  - left. intros i Hi. lia.
  - destruct (isclose (get_eigenvalue es n).2 0) eqn:E.
    + left. intros i Hi. destruct (decide (i = n)) as [-> | Hne];
        [exact E | apply IH; lia].
    + right. exists n. split; [lia | exact E].
  - right. exists i. split; [lia | exact Hbad].
Qed.

(** Under the contracts and with [N >= 1], [Nmax >= 1], the call returns:
    the loop variable is bound by the first iteration. *)
Lemma apply_returns (sqrt : Q -> Q)
    (OnlineEigenSolver : Basis -> Matrix -> EigenSolver)
    (Nmax : Z) (tol : Q) (self : POD) :
  let es := solver_of OnlineEigenSolver self in
  let N := length (snapshots_matrix self) in
  let self' := with_energy es self in
  (1 <= N)%nat -> (1 <= Nmax)%Z -> eigs_real es N -> psd (X self) ->
  exists n,
    (n < Z.to_nat (Z.min Nmax (Z.of_nat N)))%nat /\
    apply sqrt OnlineEigenSolver Nmax tol self
    = (Ok (take (S n) (eigenvalues self'),
           map (candidate sqrt es (X self) (snapshots_matrix self))
               (seq 0 (S n)),
           S n), self').
Proof.
  intros es N self' HN HNmax Hreal Hpsd.
  rewrite (apply_run sqrt OnlineEigenSolver Nmax tol self Hreal Hpsd).
  fold es N self'. unfold range.
  set (m := Z.to_nat (Z.min Nmax (Z.of_nat N))).
  assert (Hm : m = S (m - 1)) by lia.
  rewrite Hm.
  destruct (stop_index_seq (retained_energy self') tol (m - 1) 0 None)
    as (n & Hs & Hn & Hv & _).
  rewrite Hs, Hv. exists n. rewrite Nat.sub_0_r. split; [lia | reflexivity].
Qed.

(** C5. [apply] raises [AssertionError] exactly when some eigenpair among
    the [N] read carries an imaginary part that is not close to zero.  When
    every eigenvalue is numerically real (and [N >= 1], [Nmax >= 1], inner
    product within its contract), all [N] real parts are stored and [apply]
    returns normally. *)
Theorem apply_assertion_iff (sqrt : Q -> Q)
    (OnlineEigenSolver : Basis -> Matrix -> EigenSolver)
    (Nmax : Z) (tol : Q) (self : POD) :
  let es := solver_of OnlineEigenSolver self in
  let N := length (snapshots_matrix self) in
  ((apply sqrt OnlineEigenSolver Nmax tol self).1 = Raise AssertionError <->
   exists i, (i < N)%nat /\ isclose (get_eigenvalue es i).2 0 = false) /\
  (eigs_real es N -> (1 <= N)%nat -> (1 <= Nmax)%Z -> psd (X self) ->
   exists r self',
     apply sqrt OnlineEigenSolver Nmax tol self = (Ok r, self') /\
     eigenvalues self' = solver_eigenvalues es N).
Proof.
  intros es N. split; [split|].
  - intros Hraise. destruct (eigs_real_dec es N) as [Hreal | Hbad];
      [exfalso | exact Hbad].
    rewrite (apply_real sqrt OnlineEigenSolver Nmax tol self Hreal) in Hraise.
    fold es N in Hraise.
    destruct (enrich_loop _ _ _ _ _ _ _ _) as [r s] eqn:Eloop.
    apply enrich_loop_exn in Eloop as [_ Hexn].
    destruct r as [[[n|] Zb]|e]; simpl in Hraise; try discriminate.
    destruct (Hexn e eq_refl); congruence.
  - intros Hbad. apply not_real_Exists in Hbad.
    destruct (apply_assert_fail sqrt OnlineEigenSolver Nmax tol self Hbad)
      as [s Hs].
    now rewrite Hs.
  - intros Hreal HN HNmax Hpsd.
    destruct (apply_returns sqrt OnlineEigenSolver Nmax tol self
                HN HNmax Hreal Hpsd) as (n & _ & Hrun).
    rewrite Hrun. eexists _, _. split; reflexivity.
Qed.

Lemma apply_assertion_iff_witness :
  exists r self',
    apply sqrt_fix (table_solver [(1, 0); (1, 0)] [[1; 0]; [0; 1]]) 2 (1 # 100)
          (with_snapshots None [[1; 0; 0]; [0; 1; 0]])
    = (Ok r, self') /\
    eigenvalues self' = [1; 1].
Proof.
  apply (apply_assertion_iff sqrt_fix
           (table_solver [(1, 0); (1, 0)] [[1; 0]; [0; 1]]) 2 (1 # 100)
           (with_snapshots None [[1; 0; 0]; [0; 1; 0]])).
  - intros [|[|i]] Hi; [reflexivity | reflexivity | simpl in Hi; lia].
  - simpl. lia.
  - lia.
  - exact euclidean_psd.
Defined.

(** A non-real eigenvalue stops [apply] at the assertion. *)
Example apply_assertion_fires :
  (apply sqrt_fix (table_solver [(1, 0); (1, 1)] [[1; 0]; [0; 1]]) 2 (1 # 100)
         (with_snapshots None [[1; 0; 0]; [0; 1; 0]])).1
  = Raise AssertionError.
Proof. reflexivity. Qed.

(** C9. When [min(Nmax, N) <= 0] the range of the enrichment loop is empty:
    the loop returns at once with its variable unbound and the basis empty,
    [apply] never returns a triple, and once the eigenvalue assertions have
    passed (vacuously so when no snapshot is stored) it raises
    [UnboundLocalError]. *)
Theorem apply_unbound_local (sqrt : Q -> Q)
    (OnlineEigenSolver : Basis -> Matrix -> EigenSolver)
    (Nmax : Z) (tol : Q) (self : POD) :
  let es := solver_of OnlineEigenSolver self in
  let N := length (snapshots_matrix self) in
  (Z.min Nmax (Z.of_nat N) <= 0)%Z ->
  (forall s, enrich_loop sqrt es (X self) tol
               (range (Z.min Nmax (Z.of_nat N))) None [] s
             = (Ok (None, []), s)) /\
  (forall r, (apply sqrt OnlineEigenSolver Nmax tol self).1 <> Ok r) /\
  (eigs_real es N ->
   (apply sqrt OnlineEigenSolver Nmax tol self).1 = Raise UnboundLocalError) /\
  (N = 0%nat ->
   (apply sqrt OnlineEigenSolver Nmax tol self).1 = Raise UnboundLocalError).
Proof.
  intros es N Hmin.
  assert (Hrng : range (Z.min Nmax (Z.of_nat N)) = []).
  { unfold range. now replace (Z.to_nat _) with 0%nat by lia. }
  assert (Hreal : eigs_real es N ->
    (apply sqrt OnlineEigenSolver Nmax tol self).1 = Raise UnboundLocalError).
  { intros Hr. rewrite (apply_real sqrt OnlineEigenSolver Nmax tol self Hr).
    fold es N. rewrite Hrng. reflexivity. }
  repeat split.
  - intros s. now rewrite Hrng.
  - intros r Hr. destruct (eigs_real_dec es N) as [Hok | Hbad].
    + rewrite (Hreal Hok) in Hr. discriminate.
    + apply not_real_Exists in Hbad.
      destruct (apply_assert_fail sqrt OnlineEigenSolver Nmax tol self Hbad)
        as [s Hs].
      rewrite Hs in Hr. discriminate.
  - exact Hreal.
  - intros HN0. apply Hreal. intros i Hi. lia.
Qed.

Lemma apply_unbound_local_witness :
  (apply sqrt_fix (table_solver [(1, 0); (1, 0)] [[1; 0]; [0; 1]]) 0 (1 # 100)
         (with_snapshots None [[1; 0; 0]; [0; 1; 0]])).1
  = Raise UnboundLocalError /\
  (apply sqrt_fix (table_solver [] []) 3 (1 # 100) (with_snapshots None [])).1
  = Raise UnboundLocalError.
Proof.
  split.
  - destruct (apply_unbound_local sqrt_fix
                (table_solver [(1, 0); (1, 0)] [[1; 0]; [0; 1]]) 0 (1 # 100)
                (with_snapshots None [[1; 0; 0]; [0; 1; 0]]))
      as (_ & _ & Hreal & _).
    + simpl. lia.
    + apply Hreal.
      intros [|[|i]] Hi; [reflexivity | reflexivity | simpl in Hi; lia].
  - destruct (apply_unbound_local sqrt_fix (table_solver [] []) 3 (1 # 100)
                (with_snapshots None []))
      as (_ & _ & _ & Hempty).
    + simpl. lia.
    + apply Hempty. reflexivity.
Defined.

(** ** Guarded normalisation of the basis candidates *)




Lemma sqrt_fix_zero (x : Q) : 0 <= x -> sqrt_fix x == 0 -> x == 0.
Proof.
  destruct x as [p q]. unfold sqrt_fix, Qle, Qeq. simpl.
  intros Hp H0.
  destruct (Z.eq_dec p 0%Z) as [-> | Hne]; [reflexivity | exfalso].
  assert (Hs : (Z.sqrt 1 <= Z.sqrt (p * Z.pos q * 10 ^ 12))%Z).
  { apply Z.sqrt_le_mono. nia. }
  change (Z.sqrt 1) with 1%Z in Hs. lia.
Qed.




(** ** [clear] *)

Lemma clear_run (self : POD) :
  clear self
  = (Ok tt, {| X := X self; mpi_comm := mpi_comm self;
               snapshots_matrix := []; eigenvalues := [];
               retained_energy := retained_energy self |}).
Proof. reflexivity. Qed.

(** C3. [clear] empties the snapshot container and the eigenvalue sequence,
    and leaves the retained-energy sequence as it was: after [apply] on two
    orthogonal unit snapshots followed by [clear], the engine still holds the
    energy fractions [1/2, 2/2]. *)
Theorem clear_keeps_retained_energy :
  let used :=
    (apply sqrt_fix (table_solver [(1, 0); (1, 0)] [[1; 0]; [0; 1]]) 2 (1 # 100)
           (with_snapshots None [[1; 0; 0]; [0; 1; 0]])).2 in
  retained_energy used = [1 # 2; 2 # 2] /\
  snapshots_matrix (clear used).2 = [] /\
  eigenvalues (clear used).2 = [] /\
  retained_energy (clear used).2 = [1 # 2; 2 # 2] /\
  retained_energy (clear used).2 <> retained_energy (__init__ None comm0).
Proof.
  cbv zeta. rewrite clear_run. vm_compute. repeat split. discriminate.
Qed.

(** * Persisting the sequences *)

Lemma str_app_nil_r (s : string) : s +:+ EmptyString = s.
Proof.
  induction s as [|c s IH]; [reflexivity|].
  change (String c (s +:+ EmptyString) = String c s). now rewrite IH.
Qed.

Lemma str_app_assoc (s t u : string) : (s +:+ t) +:+ u = s +:+ (t +:+ u).
Proof.
  induction s as [|c s IH]; [reflexivity|].
  change (String c ((s +:+ t) +:+ u) = String c (s +:+ (t +:+ u))).
  now rewrite IH.
Qed.

Lemma set_file_id (path text : string) (w : World) :
  fs_files w !! path = Some text -> set_file path text w = w.
Proof.
  intros H. destruct w as [d f b]. unfold set_file. simpl in *.
  now rewrite insert_id.
Qed.

Lemma set_file_twice (path t1 t2 : string) (w : World) :
  set_file path t2 (set_file path t1 w) = set_file path t2 w.
Proof. unfold set_file. simpl. now rewrite insert_insert_eq. Qed.

Section SaveFacts.

Variable is_io_process : Comm -> bool.
Variable str_float : Q -> string.

(** The write loop over [a, a+k): it appends one line per index for as long
    as the array has an entry, and raises at the first index it lacks. *)
Lemma write_lines_seq (path : string) (vals : list Q) (k a : nat)
    (c : string) (w : World) :
  fs_files w !! path = Some c ->
  write_lines str_float path vals (seq a k) w
  = (if decide (k <= length (drop a vals))%nat
     then Ok tt else Raise IndexError,
     set_file path
       (c +:+ concat_lines
                (imap (fun j => line str_float (a + j)) (take k (drop a vals))))
       w).
Proof.
  revert a c w. induction k as [|k IH]; intros a c w Hc.
  - cbn [seq write_lines]. unfold ret. rewrite take_0.
    cbn [imap concat_lines foldr].
    rewrite str_app_nil_r, set_file_id by exact Hc.
    rewrite decide_True by lia. reflexivity.
  - cbn [seq write_lines]. unfold bind at 1, lift at 1, getitem.
    destruct (vals !! a) as [v|] eqn:Ev.
    + unfold bind at 1, write at 1, modify at 1.
      rewrite Hc. cbn [default].
      rewrite (IH (S a) (c +:+ line str_float a v))
        by (unfold set_file; simpl; apply lookup_insert_eq).
      rewrite set_file_twice.
      rewrite (drop_S _ _ _ Ev). cbn [take length]. rewrite imap_cons.
      cbn [concat_lines foldr]. rewrite Nat.add_0_r, str_app_assoc.
      f_equal.
      * repeat case_decide; try reflexivity; lia.
      * do 3 f_equal. unfold concat_lines. f_equal.
        apply imap_ext. intros j x _. simpl. f_equal. lia.
    + apply lookup_ge_None in Ev. rewrite drop_ge by lia.
      cbn [length take imap concat_lines foldr].
      rewrite str_app_nil_r, set_file_id by exact Hc.
      rewrite decide_False by lia. reflexivity.
Qed.

(** Both methods share one shape; [vals] is the array they read. *)
Lemma save_shape (vals : list Q) (N : nat) (dir path : string) (w : World) :
  dir ∈ fs_dirs w ->
  (open_w dir path ;;;
   write_lines str_float path vals (range (Z.of_nat N))) w
  = (if decide (N <= length vals)%nat then Ok tt else Raise IndexError,
     set_file path (concat_lines (lines_of str_float vals N)) w).
Proof.
  intros Hdir. unfold bind, open_w. rewrite decide_True by exact Hdir.
  unfold range. rewrite Nat2Z.id.
  rewrite (write_lines_seq path vals N 0 EmptyString)
    by (unfold set_file; simpl; apply lookup_insert_eq).
  rewrite set_file_twice, drop_0. reflexivity.
Qed.

End SaveFacts.

Lemma lines_of_length (str_float : Q -> string) (vals : list Q) (n : nat) :
  length (lines_of str_float vals n) = Nat.min n (length vals).
Proof. unfold lines_of. now rewrite length_imap, length_take. Qed.

Lemma lines_of_lookup (str_float : Q -> string) (vals : list Q) (n i : nat)
    (v : Q) :
  (i < n)%nat -> vals !! i = Some v ->
  lines_of str_float vals n !! i
  = Some (str_int i +:+ " " +:+ str_float v +:+ newline).
Proof.
  intros Hi Hv. unfold lines_of.
  rewrite list_lookup_imap, lookup_take_lt by exact Hi. now rewrite Hv.
Qed.

(** C8. When both stored sequences have at least [N] entries ([N] the
    number of stored snapshots), each of the two methods returns normally
    with the barrier passed once.  On the I/O process (whose output directory
    exists) the file then holds exactly [N] lines, line [i] being the index
    [i], a space, the [i]-th value and a newline, for [i = 0 .. N-1] in
    increasing order; on any other participant the file system is left as it
    was. *)
Theorem save_files_complete (is_io_process : Comm -> bool)
    (str_float : Q -> string) (self : POD) (dir file : string) (w : World) :
  let N := length (snapshots_matrix self) in
  let saved vals :=
    pass_barrier
      (if is_io_process (mpi_comm self)
       then set_file (dir +:+ "/" +:+ file)
                     (concat_lines (lines_of str_float vals N)) w
       else w) in
  (N <= length (eigenvalues self))%nat ->
  (N <= length (retained_energy self))%nat ->
  (is_io_process (mpi_comm self) = true -> dir ∈ fs_dirs w) ->
  save_eigenvalues_file is_io_process str_float self dir file w
  = (Ok tt, saved (eigenvalues self)) /\
  save_retained_energy_file is_io_process str_float self dir file w
  = (Ok tt, saved (retained_energy self)) /\
  forall vals, (N <= length vals)%nat ->
    length (lines_of str_float vals N) = N /\
    forall i v, (i < N)%nat -> vals !! i = Some v ->
      lines_of str_float vals N !! i
      = Some (str_int i +:+ " " +:+ str_float v +:+ newline).
Proof.
  intros N saved He Hr Hdir.
  unfold save_eigenvalues_file, save_retained_energy_file, saved.
  fold N. repeat split.
  - unfold bind at 1. destruct (is_io_process (mpi_comm self)).
    + rewrite save_shape by auto. rewrite decide_True by exact He. reflexivity.
    + reflexivity.
  - unfold bind at 1. destruct (is_io_process (mpi_comm self)).
    + rewrite save_shape by auto. rewrite decide_True by exact Hr. reflexivity.
    + reflexivity.
  - rewrite lines_of_length. lia.
  - intros i v Hi Hv. now apply lines_of_lookup.
Qed.

Lemma save_files_complete_witness :
  let used :=
    (apply sqrt_fix (table_solver [(1, 0); (1, 0)] [[1; 0]; [0; 1]]) 2 (1 # 100)
           (with_snapshots None [[1; 0; 0]; [0; 1; 0]])).2 in
  let w := (save_eigenvalues_file rank0_is_io str_ratio used
              "out" "eigs.txt" world0).2 in
  fs_files w !! "out/eigs.txt"%string
  = Some ("0 1/1" +:+ newline +:+ "1 1/1" +:+ newline) /\
  barriers w = 1%nat.
Proof.
  intros used w.
  destruct (save_files_complete rank0_is_io str_ratio used
              "out" "eigs.txt" world0) as (Hsave & _).
  - vm_compute. lia.
  - vm_compute. lia.
  - intros _. unfold world0. simpl. now apply elem_of_singleton.
  - unfold w. rewrite Hsave. split; [|reflexivity].
    unfold pass_barrier, set_file. simpl. rewrite lookup_insert_eq.
    vm_compute. reflexivity.
Defined.

(** C10. The write loops run over the number of stored snapshots and index
    the stored array with each value of the loop variable.  On the I/O
    process, an array shorter than the snapshot count makes the method raise
    [IndexError]: the file is left with one line per array entry, fewer than
    the snapshot count, and the barrier is not reached. *)
Theorem save_files_index_error (is_io_process : Comm -> bool)
    (str_float : Q -> string) (self : POD) (dir file : string) (w : World) :
  let N := length (snapshots_matrix self) in
  let partial vals :=
    set_file (dir +:+ "/" +:+ file)
             (concat_lines (lines_of str_float vals N)) w in
  is_io_process (mpi_comm self) = true ->
  dir ∈ fs_dirs w ->
  ((length (eigenvalues self) < N)%nat ->
   save_eigenvalues_file is_io_process str_float self dir file w
   = (Raise IndexError, partial (eigenvalues self))) /\
  ((length (retained_energy self) < N)%nat ->
   save_retained_energy_file is_io_process str_float self dir file w
   = (Raise IndexError, partial (retained_energy self))) /\
  (forall vals, (length vals < N)%nat ->
     length (lines_of str_float vals N) = length vals /\
     barriers (partial vals) = barriers w).
Proof.
  intros N partial Hio Hdir.
  unfold save_eigenvalues_file, save_retained_energy_file, partial.
  fold N. rewrite Hio. repeat split.
  - intros Hshort. unfold bind at 1. rewrite save_shape by exact Hdir.
    rewrite decide_False by lia. reflexivity.
  - intros Hshort. unfold bind at 1. rewrite save_shape by exact Hdir.
    rewrite decide_False by lia. reflexivity.
  - rewrite lines_of_length. lia.
Qed.

Lemma save_files_index_error_witness :
  save_eigenvalues_file rank0_is_io str_ratio
    (with_snapshots None [[1; 0; 0]]) "out" "eigs.txt" world0
  = (Raise IndexError, set_file "out/eigs.txt" EmptyString world0) /\
  save_retained_energy_file rank0_is_io str_ratio
    (with_snapshots None [[1; 0; 0]]) "out" "energy.txt" world0
  = (Raise IndexError, set_file "out/energy.txt" EmptyString world0).
Proof.
  split.
  - destruct (save_files_index_error rank0_is_io str_ratio
                (with_snapshots None [[1; 0; 0]]) "out" "eigs.txt" world0)
      as (Heig & _).
    + reflexivity.
    + unfold world0. simpl. now apply elem_of_singleton.
    + apply Heig. simpl. lia.
  - destruct (save_files_index_error rank0_is_io str_ratio
                (with_snapshots None [[1; 0; 0]]) "out" "energy.txt" world0)
      as (_ & Hen & _).
    + reflexivity.
    + unfold world0. simpl. now apply elem_of_singleton.
    + apply Hen. simpl. lia.
Defined.

(** * The cached dense-matrix view of the affine expansion storage *)

Section CacheFacts.

Variables Content Key Item Mat : Type.
Variable Base_setitem : Key -> Item -> M Content unit.
Variable Base_load : string -> string -> M Content unit.
Variable asmatrix : Content -> Mat.

Lemma setitem_run (key : Key) (item : Item) (s : Storage Content Mat) :
  __setitem__ Content Key Item Mat Base_setitem key item s
  = match Base_setitem key item (_content s) with
    | (Ok _, c) =>
        (Ok tt, {| _content := c; _content_as_matrix := None;
                   created := created s |})
    | (Raise e, c) =>
        (Raise e, {| _content := c;
                     _content_as_matrix := _content_as_matrix s;
                     created := created s |})
    end.
Proof.
  unfold __setitem__, bind, on_content, modify, set_cache.
  destruct (Base_setitem key item (_content s)) as [[[]|e] c]; reflexivity.
Qed.

Lemma as_matrix_run (s : Storage Content Mat) :
  as_matrix Content Mat asmatrix s
  = match _content_as_matrix s with
    | None =>
        let m := {| oid := created s; value := asmatrix (_content s) |} in
        (Ok (Some m), {| _content := _content s;
                         _content_as_matrix := Some m;
                         created := S (created s) |})
    | Some m => (Ok (Some m), s)
    end.
Proof.
  unfold as_matrix, bind, gets.
  destruct (_content_as_matrix s) as [m|] eqn:E; simpl.
  - now rewrite E.
  - reflexivity.
Qed.

Lemma load_run (directory filename : string) (s : Storage Content Mat) :
  load Content Mat Base_load asmatrix directory filename s
  = match Base_load directory filename (_content s) with
    | (Ok _, c) =>
        let m := {| oid := created s; value := asmatrix c |} in
        (Ok tt, {| _content := c; _content_as_matrix := Some m;
                   created := S (created s) |})
    | (Raise e, c) =>
        (Raise e, {| _content := c;
                     _content_as_matrix := _content_as_matrix s;
                     created := created s |})
    end.
Proof.
  unfold load. unfold bind at 1, on_content.
  destruct (Base_load directory filename (_content s)) as [[[]|e] c];
    [|reflexivity].
  unfold bind at 1, modify at 1. unfold bind at 1.
  rewrite as_matrix_run. reflexivity.
Qed.

Lemma as_matrix_twice (s : Storage Content Mat) :
  exists m s1,
    as_matrix Content Mat asmatrix s = (Ok (Some m), s1) /\
    as_matrix Content Mat asmatrix s1 = (Ok (Some m), s1).
Proof.
  rewrite as_matrix_run. destruct (_content_as_matrix s) as [m|] eqn:E.
  - exists m, s. split; [reflexivity|]. now rewrite as_matrix_run, E.
  - eexists _, _. split; [reflexivity|]. now rewrite as_matrix_run.
Qed.

Lemma run_op_coherent (o : op Key Item) (s s' : Storage Content Mat) :
  coherent Content Mat asmatrix s ->
  run_op Content Key Item Mat Base_setitem Base_load asmatrix o s
  = (Ok tt, s') ->
  coherent Content Mat asmatrix s'.
Proof.
  intros Hco. destruct o as [key item | directory filename |]; simpl.
  - rewrite setitem_run.
    destruct (Base_setitem key item (_content s)) as [[[]|e] c];
      intros [= <-]. intros m. discriminate.
  - rewrite load_run.
    destruct (Base_load directory filename (_content s)) as [[[]|e] c];
      intros [= <-]. intros m [= <-]. simpl. split; [reflexivity | lia].
  - unfold bind. rewrite as_matrix_run.
    destruct (_content_as_matrix s) as [m|] eqn:E; simpl.
    + intros [= <-]. exact Hco.
    + intros [= <-]. intros m [= <-]. simpl. split; [reflexivity | lia].
Qed.

Lemma run_ops_coherent (os : list (op Key Item)) (s s' : Storage Content Mat) :
  coherent Content Mat asmatrix s ->
  run_ops Content Key Item Mat Base_setitem Base_load asmatrix os s
  = (Ok tt, s') ->
  coherent Content Mat asmatrix s'.
Proof.
  revert s. induction os as [|o os IH]; intros s Hco; simpl.
  - now intros [= <-].
  - unfold bind.
    destruct (run_op _ _ _ _ _ _ _ o s) as [[[]|e] s1] eqn:E; [|discriminate].
    intros Hrest. eapply IH; [|exact Hrest].
    eapply run_op_coherent; [exact Hco | exact E].
Qed.

End CacheFacts.

(** C7. For every storage instance: a [__setitem__] call whose base write
    returns leaves the cache empty (when the base write raises, the exception
    leaves before the reset); [as_matrix()] creates the dense assembly of the
    current content exactly when the cache is empty and returns the cached
    object otherwise, so two consecutive calls return the same object; a
    [load] whose base load returns leaves a newly created assembly of the
    loaded content in the cache.  Hence after any sequence of calls on a new
    instance the cache is empty or holds the assembly of the current
    content. *)
Theorem cache_protocol (Content Key Item Mat : Type)
    (Base_setitem : Key -> Item -> M Content unit)
    (Base_load : string -> string -> M Content unit)
    (asmatrix : Content -> Mat) (s : Storage Content Mat) :
  (forall key item,
     __setitem__ Content Key Item Mat Base_setitem key item s
     = match Base_setitem key item (_content s) with
       | (Ok _, c) =>
           (Ok tt, {| _content := c; _content_as_matrix := None;
                      created := created s |})
       | (Raise e, c) =>
           (Raise e, {| _content := c;
                        _content_as_matrix := _content_as_matrix s;
                        created := created s |})
       end) /\
  as_matrix Content Mat asmatrix s
  = match _content_as_matrix s with
    | None =>
        let m := {| oid := created s; value := asmatrix (_content s) |} in
        (Ok (Some m), {| _content := _content s;
                         _content_as_matrix := Some m;
                         created := S (created s) |})
    | Some m => (Ok (Some m), s)
    end /\
  (exists m s1,
     as_matrix Content Mat asmatrix s = (Ok (Some m), s1) /\
     as_matrix Content Mat asmatrix s1 = (Ok (Some m), s1)) /\
  (forall directory filename,
     load Content Mat Base_load asmatrix directory filename s
     = match Base_load directory filename (_content s) with
       | (Ok _, c) =>
           let m := {| oid := created s; value := asmatrix c |} in
           (Ok tt, {| _content := c; _content_as_matrix := Some m;
                      created := S (created s) |})
       | (Raise e, c) =>
           (Raise e, {| _content := c;
                        _content_as_matrix := _content_as_matrix s;
                        created := created s |})
       end) /\
  (forall os content s',
     run_ops Content Key Item Mat Base_setitem Base_load asmatrix os
             (new_storage Content Mat content) = (Ok tt, s') ->
     coherent Content Mat asmatrix s').
Proof.
  split; [intros; apply setitem_run|].
  split; [apply as_matrix_run|].
  split; [apply as_matrix_twice|].
  split; [intros; apply load_run|].
  intros os content s' Hrun.
  eapply run_ops_coherent; [|exact Hrun].
  intros m. discriminate.
Qed.

Lemma cache_protocol_witness :
  coherent (list Q) Matrix row_matrix
    {| _content := [7; 8];
       _content_as_matrix := Some {| oid := 2; value := [[7; 8]] |};
       created := 3 |}.
Proof.
  destruct (cache_protocol (list Q) nat Q Matrix list_setitem
              (table_load disk0) row_matrix (new_storage (list Q) Matrix [1; 2]))
    as (_ & _ & _ & _ & Hseq).
  apply (Hseq [OpAsMatrix; OpSetItem 0%nat 5; OpAsMatrix; OpLoad "out" "theta"]
              [1; 2]).
  vm_compute. reflexivity.
Defined.

(** * Further properties of the POD engine *)

(** ** The stored energy fractions *)

Lemma cumsum_from_lookup (a : list Q) (acc : Q) (i : nat) (r : Q) :
  cumsum_from acc a !! i = Some r -> r == acc + sumQ (take (S i) a).
Proof.
  revert acc i. induction a as [|x a IH]; intros acc i; [discriminate|].
  destruct i as [|i]; simpl.
  - intros [= <-]. rewrite ?take_0. simpl. lra.
  - intros H. apply IH in H. rewrite H. simpl. lra.
Qed.

Lemma retained_energy_lookup (a : list Q) (i : nat) (r : Q) :
  compute_retained_energy a !! i = Some r -> r == sumQ (take (S i) a).
Proof.
  destruct a as [|x a]; [discriminate|].
  destruct i as [|i]; simpl.
  - intros [= <-]. rewrite ?take_0. simpl. lra.
  - intros H. apply cumsum_from_lookup in H. rewrite H. simpl. lra.
Qed.




(** Entry [i] of the stored fractions, in closed form. *)
Lemma energy_fractions_lookup (eigs : list Q) (i : nat) (r : Q) :
  energy_fractions eigs !! i = Some r ->
  (0 < sumQ (np_abs eigs) ->
   r == sumQ (take (S i) (np_abs eigs)) / sumQ (np_abs eigs)) /\
  (~ 0 < sumQ (np_abs eigs) -> r == 1).
Proof.
  unfold energy_fractions.
  pose proof (total_energy_sum (np_abs eigs)) as Htot.
  pose proof (sumQ_nonneg _ (np_abs_nonneg eigs)) as Hnn.
  destruct (Qgtb (compute_total_energy (np_abs eigs)) 0) eqn:E.
  - apply Qgtb_true in E. rewrite list_lookup_fmap.
    destruct (compute_retained_energy (np_abs eigs) !! i) as [x|] eqn:Ex;
      [|discriminate].
    intros [= <-]. apply retained_energy_lookup in Ex.
    split; [|intros Hn; exfalso; apply Hn; lra].
    intros _. now rewrite Ex, Htot.
  - apply Qgtb_false in E. unfold array_add. rewrite list_lookup_fmap.
    destruct (compute_retained_energy (np_abs eigs) !! i) as [x|] eqn:Ex;
      [|discriminate].
    intros [= <-]. split; [intros Hp; lra|]. intros _.
    pose proof (retained_energy_bounds _ (np_abs_nonneg eigs)) as Hb.
    rewrite Forall_lookup in Hb. specialize (Hb i x Ex). simpl in Hb. lra.
Qed.




(** Once the assertions of lines 73-76 have passed, the state [apply] leaves
    is the same whether it then returns or raises. *)
Lemma apply_state (sqrt : Q -> Q)
    (OnlineEigenSolver : Basis -> Matrix -> EigenSolver)
    (Nmax : Z) (tol : Q) (self : POD) :
  let es := solver_of OnlineEigenSolver self in
  eigs_real es (length (snapshots_matrix self)) ->
  (apply sqrt OnlineEigenSolver Nmax tol self).2 = with_energy es self.
Proof.
  intros es Hreal.
  rewrite (apply_real sqrt OnlineEigenSolver Nmax tol self Hreal). fold es.
  destruct (enrich_loop _ _ _ _ _ _ _ _) as [r s] eqn:Eloop.
  apply enrich_loop_exn in Eloop as [-> _].
  destruct r as [[[n|] Zb]|e]; reflexivity.
Qed.

(** X1. Once [apply] has passed its assertions, the stored retained energy
    has one entry per snapshot; entry [i] is the sum of [|lambda_k|] for
    [k <= i] divided by the sum over all [k] when that total is positive, and
    is 1 when the total is zero. *)
Theorem retained_energy_formula (sqrt : Q -> Q)
    (OnlineEigenSolver : Basis -> Matrix -> EigenSolver)
    (Nmax : Z) (tol : Q) (self : POD) :
  let es := solver_of OnlineEigenSolver self in
  let N := length (snapshots_matrix self) in
  let magnitudes := np_abs (solver_eigenvalues es N) in
  let self' := (apply sqrt OnlineEigenSolver Nmax tol self).2 in
  eigs_real es N ->
  length (retained_energy self') = N /\
  forall i r, retained_energy self' !! i = Some r ->
    (0 < sumQ magnitudes ->
     r == sumQ (take (S i) magnitudes) / sumQ magnitudes) /\
    (~ 0 < sumQ magnitudes -> r == 1).
Proof.
  intros es N magnitudes self' Hreal. unfold self'.
  rewrite (apply_state sqrt OnlineEigenSolver Nmax tol self Hreal). fold es.
  split; [apply with_energy_length|].
  intros i r Hr. now apply energy_fractions_lookup.
Qed.

Lemma retained_energy_formula_witness :
  retained_energy
    (apply sqrt_fix (table_solver [(3, 0); (-1, 0)] [[1; 0]; [0; 1]]) 2 (1 # 100)
           (with_snapshots None [[1; 0; 0]; [0; 1; 0]])).2
  !! 0%nat = Some (3 # 4) /\
  (3 # 4) == sumQ [3] / sumQ [3; 1].
Proof.
  destruct (retained_energy_formula sqrt_fix
              (table_solver [(3, 0); (-1, 0)] [[1; 0]; [0; 1]]) 2 (1 # 100)
              (with_snapshots None [[1; 0; 0]; [0; 1; 0]])) as [_ Hform].
  - intros [|[|i]] Hi; [reflexivity | reflexivity | simpl in Hi; lia].
  - assert (Hlook : retained_energy
      (apply sqrt_fix (table_solver [(3, 0); (-1, 0)] [[1; 0]; [0; 1]]) 2
             (1 # 100) (with_snapshots None [[1; 0; 0]; [0; 1; 0]])).2
      !! 0%nat = Some (3 # 4)) by (vm_compute; reflexivity).
    split; [exact Hlook|].
    destruct (Hform 0%nat (3 # 4) Hlook) as [Hpos _].
    apply Hpos. reflexivity.
Defined.





(** ** [apply] and the state of the engine *)

Lemma apply_real_or_fails (sqrt : Q -> Q)
    (OnlineEigenSolver : Basis -> Matrix -> EigenSolver)
    (Nmax : Z) (tol : Q) (self : POD) :
  let es := solver_of OnlineEigenSolver self in
  eigs_real es (length (snapshots_matrix self)) \/
  (apply sqrt OnlineEigenSolver Nmax tol self).1 = Raise AssertionError.
Proof.
  intros es.
  destruct (eigs_real_dec es (length (snapshots_matrix self))) as [Hr | Hbad];
    [now left | right].
  apply not_real_Exists in Hbad.
  destruct (apply_assert_fail sqrt OnlineEigenSolver Nmax tol self Hbad)
    as [s Hs].
  now rewrite Hs.
Qed.

(** X4. The outcome of [apply] does not depend on the eigenvalue and
    retained-energy sequences the engine held before the call: with either
    replaced by anything, [apply] returns or raises the same; and once the
    assertions pass, it leaves the same state. *)
Theorem apply_ignores_stale_sequences (sqrt : Q -> Q)
    (OnlineEigenSolver : Basis -> Matrix -> EigenSolver)
    (Nmax : Z) (tol : Q) (self : POD) (stale_eigs stale_energy : list Q) :
  let es := solver_of OnlineEigenSolver self in
  let stale :=
    set_retained_energy stale_energy (set_eigenvalues stale_eigs self) in
  (apply sqrt OnlineEigenSolver Nmax tol stale).1
  = (apply sqrt OnlineEigenSolver Nmax tol self).1 /\
  (eigs_real es (length (snapshots_matrix self)) ->
   apply sqrt OnlineEigenSolver Nmax tol stale
   = apply sqrt OnlineEigenSolver Nmax tol self).
Proof.
  intros es stale.
  assert (Hsame : eigs_real es (length (snapshots_matrix self)) ->
    apply sqrt OnlineEigenSolver Nmax tol stale
    = apply sqrt OnlineEigenSolver Nmax tol self).
  { intros Hreal.
    rewrite (apply_real sqrt OnlineEigenSolver Nmax tol self Hreal).
    rewrite (apply_real sqrt OnlineEigenSolver Nmax tol stale Hreal).
    reflexivity. }
  split; [|exact Hsame].
  destruct (eigs_real_dec es (length (snapshots_matrix self))) as [Hr | Hbad].
  - now rewrite Hsame.
  - apply not_real_Exists in Hbad.
    destruct (apply_assert_fail sqrt OnlineEigenSolver Nmax tol self Hbad)
      as [s1 Hs1].
    destruct (apply_assert_fail sqrt OnlineEigenSolver Nmax tol stale Hbad)
      as [s2 Hs2].
    now rewrite Hs1, Hs2.
Qed.

Lemma apply_ignores_stale_sequences_witness :
  apply sqrt_fix (table_solver [(1, 0); (1, 0)] [[1; 0]; [0; 1]]) 2 (1 # 100)
        (set_retained_energy [5]
           (set_eigenvalues [7; 7; 7]
              (with_snapshots None [[1; 0; 0]; [0; 1; 0]])))
  = apply sqrt_fix (table_solver [(1, 0); (1, 0)] [[1; 0]; [0; 1]]) 2 (1 # 100)
          (with_snapshots None [[1; 0; 0]; [0; 1; 0]]).
Proof.
  apply (apply_ignores_stale_sequences sqrt_fix
           (table_solver [(1, 0); (1, 0)] [[1; 0]; [0; 1]]) 2 (1 # 100)
           (with_snapshots None [[1; 0; 0]; [0; 1; 0]]) [7; 7; 7] [5]).
  intros [|[|i]] Hi; [reflexivity | reflexivity | simpl in Hi; lia].
Defined.

(** X5. [apply] is idempotent: called again on the state a returning call
    left, it returns the same triple and leaves that state unchanged.  It
    never modifies the snapshots, the inner product or the communicator. *)
Theorem apply_idempotent (sqrt : Q -> Q)
    (OnlineEigenSolver : Basis -> Matrix -> EigenSolver)
    (Nmax : Z) (tol : Q) (self : POD) :
  let self' := (apply sqrt OnlineEigenSolver Nmax tol self).2 in
  (snapshots_matrix self' = snapshots_matrix self /\
   X self' = X self /\ mpi_comm self' = mpi_comm self) /\
  forall r, (apply sqrt OnlineEigenSolver Nmax tol self).1 = Ok r ->
    apply sqrt OnlineEigenSolver Nmax tol self' = (Ok r, self').
Proof.
  intros self'.
  set (es := solver_of OnlineEigenSolver self).
  destruct (eigs_real_dec es (length (snapshots_matrix self))) as [Hreal | Hbad].
  - assert (Hst : self' = with_energy es self)
      by (apply apply_state; exact Hreal).
    split; [rewrite Hst; repeat split; reflexivity|].
    intros r Hr.
    assert (Hagain : apply sqrt OnlineEigenSolver Nmax tol self'
                     = apply sqrt OnlineEigenSolver Nmax tol self).
    { rewrite Hst.
      rewrite (apply_real sqrt OnlineEigenSolver Nmax tol self Hreal).
      rewrite (apply_real sqrt OnlineEigenSolver Nmax tol
                 (with_energy es self) Hreal).
      reflexivity. }
    rewrite Hagain. fold self'. rewrite <- Hr.
    now destruct (apply sqrt OnlineEigenSolver Nmax tol self).
  - apply not_real_Exists in Hbad.
    destruct (apply_assert_fail sqrt OnlineEigenSolver Nmax tol self Hbad)
      as [s Hs].
    unfold self'. rewrite Hs. simpl. split; [|discriminate].
    revert Hs. unfold apply.
    unfold bind at 1, gets at 1. unfold bind at 1, gets at 1.
    unfold bind at 1, gets at 1. unfold bind at 1, modify at 1.
    unfold bind at 1.
    change (OnlineEigenSolver [] (correlation (X self) (snapshots_matrix self)))
      with es.
    destruct (read_eigenvalues_fail es _
                (set_eigenvalues (zeros (length (snapshots_matrix self))) self)
                Hbad) as [ev Hev].
    rewrite Hev. intros [= <-]. repeat split; reflexivity.
Qed.

Lemma apply_idempotent_witness :
  let first :=
    apply sqrt_fix (table_solver [(1, 0); (1, 0)] [[1; 0]; [0; 1]]) 2 (1 # 100)
          (with_snapshots None [[1; 0; 0]; [0; 1; 0]]) in
  exists Zb,
    first.1 = Ok ([1; 1], Zb, 2%nat) /\
    apply sqrt_fix (table_solver [(1, 0); (1, 0)] [[1; 0]; [0; 1]]) 2 (1 # 100)
          first.2
    = (Ok ([1; 1], Zb, 2%nat), first.2).
Proof.
  intros first.
  destruct (apply_idempotent sqrt_fix
              (table_solver [(1, 0); (1, 0)] [[1; 0]; [0; 1]]) 2 (1 # 100)
              (with_snapshots None [[1; 0; 0]; [0; 1; 0]])) as [_ Hagain].
  eexists. split; [vm_compute; reflexivity|].
  apply Hagain. vm_compute. reflexivity.
Defined.

(** ** Norm of the enriched vectors *)









(** * Further properties of the persistence methods *)

Lemma with_energy_retained (es : EigenSolver) (self : POD) :
  retained_energy (with_energy es self)
  = energy_fractions (solver_eigenvalues es (length (snapshots_matrix self))).
Proof. reflexivity. Qed.

(** X7. Once [apply] has passed its assertions (in particular whenever it
    returns), both save methods succeed on the I/O process whose output
    directory exists: the eigenvalue file gets one line per eigenvalue read
    and the energy file one line per stored fraction, [N] lines each. *)
Theorem saves_complete_after_apply (sqrt : Q -> Q)
    (OnlineEigenSolver : Basis -> Matrix -> EigenSolver)
    (is_io_process : Comm -> bool) (str_float : Q -> string)
    (Nmax : Z) (tol : Q) (self : POD) (dir file : string) (w : World) :
  let es := solver_of OnlineEigenSolver self in
  let N := length (snapshots_matrix self) in
  let self' := (apply sqrt OnlineEigenSolver Nmax tol self).2 in
  let eigs := solver_eigenvalues es N in
  let saved vals :=
    pass_barrier
      (set_file (dir +:+ "/" +:+ file)
                (concat_lines (lines_of str_float vals N)) w) in
  eigs_real es N ->
  is_io_process (mpi_comm self) = true ->
  dir ∈ fs_dirs w ->
  save_eigenvalues_file is_io_process str_float self' dir file w
  = (Ok tt, saved eigs) /\
  save_retained_energy_file is_io_process str_float self' dir file w
  = (Ok tt, saved (energy_fractions eigs)) /\
  length (lines_of str_float eigs N) = N /\
  length (lines_of str_float (energy_fractions eigs) N) = N.
Proof.
  intros es N self' eigs saved Hreal Hio Hdir. unfold self'.
  rewrite (apply_state sqrt OnlineEigenSolver Nmax tol self Hreal). fold es.
  unfold save_eigenvalues_file, save_retained_energy_file.
  cbn [mpi_comm with_energy set_retained_energy set_eigenvalues
       snapshots_matrix eigenvalues retained_energy].
  rewrite Hio. fold N eigs.
  assert (Hle : length eigs = N) by apply solver_eigenvalues_length.
  assert (Hlr : length (energy_fractions eigs) = N)
    by (rewrite energy_fractions_length; exact Hle).
  repeat split.
  - unfold bind at 1. rewrite save_shape by exact Hdir.
    rewrite decide_True by lia. reflexivity.
  - unfold bind at 1. rewrite save_shape by exact Hdir.
    rewrite decide_True by lia. reflexivity.
  - rewrite lines_of_length. lia.
  - rewrite lines_of_length. lia.
Qed.

Lemma saves_complete_after_apply_witness :
  let used :=
    (apply sqrt_fix (table_solver [(3, 0); (-1, 0)] [[1; 0]; [0; 1]]) 2
           (1 # 100) (with_snapshots None [[1; 0; 0]; [0; 1; 0]])).2 in
  (save_retained_energy_file rank0_is_io str_ratio used
     "out" "energy.txt" world0).1 = Ok tt.
Proof.
  intros used.
  destruct (saves_complete_after_apply sqrt_fix
              (table_solver [(3, 0); (-1, 0)] [[1; 0]; [0; 1]])
              rank0_is_io str_ratio 2 (1 # 100)
              (with_snapshots None [[1; 0; 0]; [0; 1; 0]])
              "out" "energy.txt" world0) as (_ & Hen & _).
  - intros [|[|i]] Hi; [reflexivity | reflexivity | simpl in Hi; lia].
  - reflexivity.
  - unfold world0. simpl. now apply elem_of_singleton.
  - unfold used. now rewrite Hen.
Defined.



Lemma set_file_commute (p1 p2 t1 t2 : string) (w : World) :
  p1 <> p2 ->
  set_file p2 t2 (set_file p1 t1 w) = set_file p1 t1 (set_file p2 t2 w).
Proof.
  intros Hne. unfold set_file. simpl. f_equal.
  apply insert_insert_ne. congruence.
Qed.

(** X9. On the I/O process, with arrays long enough and the directory
    present, writing the eigenvalue file and then the energy file under a
    different name leaves both files complete; what either file held before
    is discarded, every other file keeps its content, and the barrier has
    been passed twice. *)
Theorem save_both_files (is_io_process : Comm -> bool)
    (str_float : Q -> string) (self : POD) (dir file1 file2 : string)
    (w : World) :
  let N := length (snapshots_matrix self) in
  let path1 := dir +:+ "/" +:+ file1 in
  let path2 := dir +:+ "/" +:+ file2 in
  let text1 := concat_lines (lines_of str_float (eigenvalues self) N) in
  let text2 := concat_lines (lines_of str_float (retained_energy self) N) in
  is_io_process (mpi_comm self) = true ->
  dir ∈ fs_dirs w ->
  (N <= length (eigenvalues self))%nat ->
  (N <= length (retained_energy self))%nat ->
  path1 <> path2 ->
  exists w',
    (save_eigenvalues_file is_io_process str_float self dir file1 ;;;
     save_retained_energy_file is_io_process str_float self dir file2) w
    = (Ok tt, w') /\
    fs_files w' !! path1 = Some text1 /\
    fs_files w' !! path2 = Some text2 /\
    (forall p, p <> path1 -> p <> path2 -> fs_files w' !! p = fs_files w !! p) /\
    fs_dirs w' = fs_dirs w /\
    barriers w' = S (S (barriers w)).
Proof.
  intros N path1 path2 text1 text2 Hio Hdir He Hr Hne.
  unfold save_eigenvalues_file, save_retained_energy_file.
  rewrite Hio. fold N path1 path2.
  unfold bind at 1. unfold bind at 1.
  rewrite save_shape by exact Hdir. rewrite decide_True by exact He.
  unfold barrier at 1, modify at 1.
  unfold bind at 1.
  rewrite save_shape by exact Hdir. rewrite decide_True by exact Hr.
  eexists. split; [reflexivity|].
  fold text1 text2. unfold barrier, modify, pass_barrier, set_file. simpl.
  repeat split.
  - rewrite lookup_insert_ne by congruence. apply lookup_insert_eq.
  - apply lookup_insert_eq.
  - intros p Hp1 Hp2. now rewrite !lookup_insert_ne by congruence.
Qed.

Lemma save_both_files_witness :
  let used :=
    (apply sqrt_fix (table_solver [(3, 0); (-1, 0)] [[1; 0]; [0; 1]]) 2
           (1 # 100) (with_snapshots None [[1; 0; 0]; [0; 1; 0]])).2 in
  exists w',
    (save_eigenvalues_file rank0_is_io str_ratio used "out" "eigs.txt" ;;;
     save_retained_energy_file rank0_is_io str_ratio used "out" "energy.txt")
      world0 = (Ok tt, w') /\
    barriers w' = 2%nat.
Proof.
  intros used.
  destruct (save_both_files rank0_is_io str_ratio used
              "out" "eigs.txt" "energy.txt" world0)
    as (w' & Hrun & _ & _ & _ & _ & Hbar).
  - reflexivity.
  - unfold world0. simpl. now apply elem_of_singleton.
  - vm_compute. lia.
  - vm_compute. lia.
  - discriminate.
  - exists w'. split; [exact Hrun | exact Hbar].
Defined.

(** X10. After [clear()] the snapshot count is zero, so on the I/O process
    (directory present) both save methods return and leave an empty file,
    also the energy one, although [clear] has kept the old retained-energy
    entries. *)
Theorem save_after_clear (is_io_process : Comm -> bool)
    (str_float : Q -> string) (self : POD) (dir file : string) (w : World) :
  let cleared := (clear self).2 in
  is_io_process (mpi_comm self) = true ->
  dir ∈ fs_dirs w ->
  retained_energy cleared = retained_energy self /\
  save_eigenvalues_file is_io_process str_float cleared dir file w
  = (Ok tt, pass_barrier (set_file (dir +:+ "/" +:+ file) EmptyString w)) /\
  save_retained_energy_file is_io_process str_float cleared dir file w
  = (Ok tt, pass_barrier (set_file (dir +:+ "/" +:+ file) EmptyString w)).
Proof.
  intros cleared Hio Hdir. unfold cleared. rewrite clear_run.
  unfold save_eigenvalues_file, save_retained_energy_file.
  cbn [snd mpi_comm snapshots_matrix eigenvalues retained_energy length].
  rewrite Hio. repeat split.
  - unfold bind at 1. rewrite save_shape by exact Hdir.
    rewrite decide_True by (simpl; lia). reflexivity.
  - unfold bind at 1. rewrite save_shape by exact Hdir.
    rewrite decide_True by lia. reflexivity.
Qed.

Lemma save_after_clear_witness :
  let used :=
    (apply sqrt_fix (table_solver [(3, 0); (-1, 0)] [[1; 0]; [0; 1]]) 2
           (1 # 100) (with_snapshots None [[1; 0; 0]; [0; 1; 0]])).2 in
  retained_energy (clear used).2 = [3 # 4; 4 # 4] /\
  save_retained_energy_file rank0_is_io str_ratio (clear used).2
    "out" "energy.txt" world0
  = (Ok tt, pass_barrier (set_file "out/energy.txt" EmptyString world0)).
Proof.
  intros used.
  destruct (save_after_clear rank0_is_io str_ratio used
              "out" "energy.txt" world0) as (Hkeep & _ & Hen).
  - reflexivity.
  - unfold world0. simpl. now apply elem_of_singleton.
  - split; [rewrite Hkeep; vm_compute; reflexivity | exact Hen].
Defined.

(** * Printing the eigenvalues *)

Section PrintFacts.

Variable str_float : Q -> string.

(** The print loop over [a, a+k): one line per index for as long as the
    array has an entry, [IndexError] at the first index it lacks. *)
Lemma print_lines_seq (eigs : list Q) (k a : nat) (out : list string) :
  print_lines str_float eigs (seq a k) out
  = (if decide (k <= length (drop a eigs))%nat
     then Ok tt else Raise IndexError,
     out ++ imap (fun j => label str_float (a + j)) (take k (drop a eigs))).
Proof.
  revert a out. induction k as [|k IH]; intros a out.
  - cbn [seq print_lines]. unfold ret. rewrite take_0. cbn [imap].
    rewrite app_nil_r, decide_True by lia. reflexivity.
  - cbn [seq print_lines]. unfold bind at 1, lift at 1, getitem.
    destruct (eigs !! a) as [v|] eqn:Ev.
    + unfold bind at 1, print at 1, modify at 1.
      rewrite (IH (S a)). rewrite (drop_S _ _ _ Ev).
      cbn [take length]. rewrite imap_cons, Nat.add_0_r, <- app_assoc.
      f_equal.
      * repeat case_decide; try reflexivity; lia.
      * cbn [app]. do 2 f_equal. apply imap_ext. intros j x _. simpl.
        f_equal. lia.
    + apply lookup_ge_None in Ev. rewrite drop_ge by lia.
      cbn [length take imap]. rewrite app_nil_r, decide_False by lia.
      reflexivity.
Qed.

Lemma imap_label_seq (f : nat -> Q) (k a : nat) :
  imap (fun j => label str_float (a + j)) (map f (seq a k))
  = map (fun i => label str_float i (f i)) (seq a k).
Proof.
  revert a. induction k as [|k IH]; intros a; [reflexivity|].
  cbn [seq map]. rewrite imap_cons. f_equal.
  - now rewrite Nat.add_0_r.
  - rewrite <- IH. apply imap_ext. intros j x _. simpl. f_equal. lia.
Qed.

End PrintFacts.

(** X11. [print_eigenvalues(N)] prints the lines [lambda_i = value_i] for
    [i = 0, 1, ...] in order, as many as [N] asks for and the eigenvalue
    array has; it returns when the array has at least [N] entries and raises
    [IndexError] after the last available line otherwise.  For [N <= 0]
    nothing is printed. *)
Theorem print_eigenvalues_explicit (str_float : Q -> string) (self : POD)
    (n : Z) (out : list string) :
  print_eigenvalues str_float self (Some n) out
  = (if decide (Z.to_nat n <= length (eigenvalues self))%nat
     then Ok tt else Raise IndexError,
     out ++ imap (label str_float) (take (Z.to_nat n) (eigenvalues self))) /\
  ((n <= 0)%Z ->
   print_eigenvalues str_float self (Some n) out = (Ok tt, out)).
Proof.
  assert (Hgen : print_eigenvalues str_float self (Some n) out
    = (if decide (Z.to_nat n <= length (eigenvalues self))%nat
       then Ok tt else Raise IndexError,
       out ++ imap (label str_float)
                   (take (Z.to_nat n) (eigenvalues self)))).
  { unfold print_eigenvalues, range. rewrite print_lines_seq, drop_0.
    reflexivity. }
  split; [exact Hgen|].
  intros Hn. rewrite Hgen.
  replace (Z.to_nat n) with 0%nat by lia.
  rewrite take_0. cbn [imap]. rewrite app_nil_r, decide_True by lia.
  reflexivity.
Qed.

Lemma print_eigenvalues_explicit_witness :
  print_eigenvalues str_ratio (with_snapshots None [[1; 0; 0]]) (Some (-2)%Z) []
  = (Ok tt, []).
Proof.
  apply (print_eigenvalues_explicit str_ratio
           (with_snapshots None [[1; 0; 0]]) (-2)%Z []).
  lia.
Defined.

(** X12. Once [apply] has passed its assertions, [print_eigenvalues()] with
    its default argument returns after printing exactly one line per
    snapshot, line [i] showing the real part the eigensolver gave for
    index [i]. *)
Theorem print_after_apply (sqrt : Q -> Q)
    (OnlineEigenSolver : Basis -> Matrix -> EigenSolver)
    (str_float : Q -> string) (Nmax : Z) (tol : Q) (self : POD)
    (out : list string) :
  let es := solver_of OnlineEigenSolver self in
  let N := length (snapshots_matrix self) in
  let self' := (apply sqrt OnlineEigenSolver Nmax tol self).2 in
  let printed :=
    map (fun i => label str_float i (get_eigenvalue es i).1) (seq 0 N) in
  eigs_real es N ->
  print_eigenvalues str_float self' None out = (Ok tt, out ++ printed) /\
  length printed = N.
Proof.
  intros es N self' printed Hreal. unfold self'.
  rewrite (apply_state sqrt OnlineEigenSolver Nmax tol self Hreal). fold es.
  unfold print_eigenvalues, range.
  cbn [with_energy set_retained_energy set_eigenvalues
       snapshots_matrix eigenvalues].
  fold N. rewrite Nat2Z.id, print_lines_seq, drop_0.
  rewrite solver_eigenvalues_length, decide_True by lia.
  rewrite take_ge by (rewrite solver_eigenvalues_length; lia).
  split; [|unfold printed; now rewrite length_map, length_seq].
  do 2 f_equal. unfold printed, solver_eigenvalues.
  apply (imap_label_seq str_float (fun i => (get_eigenvalue es i).1) N 0).
Qed.

Lemma print_after_apply_witness :
  print_eigenvalues str_ratio
    (apply sqrt_fix (table_solver [(3, 0); (-1, 0)] [[1; 0]; [0; 1]]) 2
           (1 # 100) (with_snapshots None [[1; 0; 0]; [0; 1; 0]])).2
    None []
  = (Ok tt, ["lambda_0 = 3/1"; "lambda_1 = -1/1"]%string).
Proof.
  apply (print_after_apply sqrt_fix
           (table_solver [(3, 0); (-1, 0)] [[1; 0]; [0; 1]]) str_ratio
           2 (1 # 100) (with_snapshots None [[1; 0; 0]; [0; 1; 0]]) []).
  intros [|[|i]] Hi; [reflexivity | reflexivity | simpl in Hi; lia].
Defined.

(** X13. On an engine that holds snapshots but has not run [apply] since it
    was built or cleared, [print_eigenvalues()] raises [IndexError] before
    printing anything; right after [clear()] it prints nothing and
    returns. *)
Theorem print_before_apply (str_float : Q -> string) (self : POD)
    (snaps : list Vector) (out : list string) :
  print_eigenvalues str_float (clear self).2 None out = (Ok tt, out) /\
  (snaps <> [] ->
   print_eigenvalues str_float (set_snapshots_matrix snaps (clear self).2)
     None out = (Raise IndexError, out) /\
   print_eigenvalues str_float
     (set_snapshots_matrix snaps (__init__ (X self) (mpi_comm self)))
     None out = (Raise IndexError, out)).
Proof.
  rewrite clear_run. unfold print_eigenvalues, range.
  cbn [snd set_snapshots_matrix __init__ snapshots_matrix eigenvalues zeros
       repeat length].
  split; [reflexivity|].
  intros Hne. rewrite Nat2Z.id.
  destruct snaps as [|s snaps]; [contradiction|].
  cbn [length]. rewrite print_lines_seq. cbn [drop length take imap].
  rewrite app_nil_r, decide_False by lia. split; reflexivity.
Qed.

Lemma print_before_apply_witness :
  print_eigenvalues str_ratio (with_snapshots None [[1; 0; 0]]) None []
  = (Raise IndexError, []).
Proof.
  apply (print_before_apply str_ratio (__init__ None comm0) [[1; 0; 0]] []).
  discriminate.
Defined.

(** * An inner product that is not positive semi-definite *)

(** X14. When the form of [X] is negative on the first basis candidate,
    [apply] raises [ValueError] out of [math.sqrt], after having stored the
    eigenvalues and the retained energy; no basis is returned. *)
Theorem apply_negative_form_raises (sqrt : Q -> Q)
    (OnlineEigenSolver : Basis -> Matrix -> EigenSolver)
    (Nmax : Z) (tol : Q) (self : POD) :
  let es := solver_of OnlineEigenSolver self in
  let N := length (snapshots_matrix self) in
  let b := lincomb (snapshots_matrix self) (get_eigenvector es 0).1 in
  eigs_real es N -> (1 <= N)%nat -> (1 <= Nmax)%Z ->
  inner (X self) b b < 0 ->
  apply sqrt OnlineEigenSolver Nmax tol self
  = (Raise ValueError, with_energy es self).
Proof.
  intros es N b Hreal HN HNmax Hneg.
  rewrite (apply_real sqrt OnlineEigenSolver Nmax tol self Hreal). fold es N.
  unfold range.
  replace (Z.to_nat (Z.min Nmax (Z.of_nat N)))
    with (S (Z.to_nat (Z.min Nmax (Z.of_nat N)) - 1)) by lia.
  cbn [seq enrich_loop]. unfold b in Hneg.
  destruct (get_eigenvector es 0) as [eigvector other]. cbn [fst] in Hneg.
  unfold bind at 1, gets at 1. unfold bind at 1, lift at 1, math_sqrt.
  cbn [snapshots_matrix with_energy set_retained_energy set_eigenvalues].
  replace (Qgtb 0 (inner (X self)
                     (lincomb (snapshots_matrix self) eigvector)
                     (lincomb (snapshots_matrix self) eigvector)))
    with true by (symmetry; apply Qgtb_true; exact Hneg).
  reflexivity.
Qed.

Lemma apply_negative_form_raises_witness :
  (apply sqrt_fix (table_solver [(-1, 0)] [[1]]) 1 (1 # 100)
         (with_snapshots (Some [[-1]]) [[1]])).1
  = Raise ValueError.
Proof.
  rewrite (apply_negative_form_raises sqrt_fix (table_solver [(-1, 0)] [[1]])
             1 (1 # 100) (with_snapshots (Some [[-1]]) [[1]])).
  - reflexivity.
  - intros [|i] Hi; [reflexivity | simpl in Hi; lia].
  - simpl. lia.
  - lia.
  - reflexivity.
Defined.

(** * Further properties of the affine expansion storage *)

Section CacheMore.

Variables Content Key Item Mat : Type.
Variable Base_setitem : Key -> Item -> M Content unit.
Variable Base_load : string -> string -> M Content unit.
Variable asmatrix : Content -> Mat.

Lemma run_op_budget (o : op Key Item) (s s' : Storage Content Mat)
    (r : result unit) :
  run_op Content Key Item Mat Base_setitem Base_load asmatrix o s = (r, s') ->
  (created s' + pending s'
   <= created s + pending s + (if is_mutation o then 1 else 0))%nat.
Proof.
  unfold pending. destruct o as [key item | directory filename |]; simpl.
  - rewrite setitem_run.
    destruct (Base_setitem key item (_content s)) as [[[]|e] c];
      intros [= <- <-]; simpl; destruct (_content_as_matrix s); lia.
  - rewrite load_run.
    destruct (Base_load directory filename (_content s)) as [[[]|e] c];
      intros [= <- <-]; simpl; destruct (_content_as_matrix s); lia.
  - unfold bind. rewrite as_matrix_run.
    destruct (_content_as_matrix s) as [m|] eqn:E; simpl;
      intros [= <- <-]; simpl; rewrite ?E; lia.
Qed.

Lemma run_ops_budget (os : list (op Key Item)) (s s' : Storage Content Mat)
    (r : result unit) :
  run_ops Content Key Item Mat Base_setitem Base_load asmatrix os s = (r, s') ->
  (created s' + pending s' <= created s + pending s + mutations os)%nat.
Proof.
  revert s. induction os as [|o os IH]; intros s; simpl.
  - intros [= <- <-]. lia.
  - unfold bind.
    destruct (run_op _ _ _ _ _ _ _ o s) as [[[]|e] s1] eqn:E.
    + intros Hrest. apply IH in Hrest. apply run_op_budget in E.
      destruct (is_mutation o); lia.
    + intros [= <- <-]. apply run_op_budget in E.
      destruct (is_mutation o); lia.
Qed.

Lemma run_op_coherent_any (o : op Key Item) (s s' : Storage Content Mat)
    (r : result unit) :
  (forall key item, atomic_failure (Base_setitem key item)) ->
  (forall directory filename, atomic_failure (Base_load directory filename)) ->
  coherent Content Mat asmatrix s ->
  run_op Content Key Item Mat Base_setitem Base_load asmatrix o s = (r, s') ->
  coherent Content Mat asmatrix s'.
Proof.
  intros Hset Hload Hco. destruct r as [[]|e].
  - apply run_op_coherent. exact Hco.
  - destruct o as [key item | directory filename |]; simpl.
    + rewrite setitem_run.
      destruct (Base_setitem key item (_content s)) as [[[]|e'] c] eqn:Eb;
        intros [= <- <-].
      apply Hset in Eb. subst c. destruct s; exact Hco.
    + rewrite load_run.
      destruct (Base_load directory filename (_content s)) as [[[]|e'] c] eqn:Eb;
        intros [= <- <-].
      apply Hload in Eb. subst c. destruct s; exact Hco.
    + unfold bind. rewrite as_matrix_run.
      destruct (_content_as_matrix s); discriminate.
Qed.

End CacheMore.

(** X15. Over any sequence of [__setitem__], [load] and [as_matrix] calls on
    a new storage, whether it ends normally or in an exception, the dense
    assembly is created at most once per writing call plus once: repeated
    [as_matrix] calls between writes reuse the cached object. *)
Theorem cache_recompute_budget (Content Key Item Mat : Type)
    (Base_setitem : Key -> Item -> M Content unit)
    (Base_load : string -> string -> M Content unit)
    (asmatrix : Content -> Mat)
    (os : list (op Key Item)) (content : Content)
    (r : result unit) (s' : Storage Content Mat) :
  run_ops Content Key Item Mat Base_setitem Base_load asmatrix os
          (new_storage Content Mat content) = (r, s') ->
  (created s' + pending s' <= mutations os + 1)%nat.
Proof.
  intros Hrun. apply run_ops_budget in Hrun.
  change (created (new_storage Content Mat content)) with 0%nat in Hrun.
  change (pending (new_storage Content Mat content)) with 1%nat in Hrun.
  lia.
Qed.

Lemma cache_recompute_budget_witness :
  (created
     (run_ops (list Q) nat Q Matrix list_setitem (table_load disk0) row_matrix
        [OpAsMatrix; OpAsMatrix; OpSetItem 0%nat 5%Q; OpAsMatrix; OpAsMatrix;
         OpAsMatrix]
        (new_storage (list Q) Matrix [1%Q; 2%Q])).2
   <= 2)%nat.
Proof.
  set (res := run_ops _ _ _ _ _ _ _ _ _).
  pose proof (cache_recompute_budget (list Q) nat Q Matrix list_setitem
                (table_load disk0) row_matrix
                [OpAsMatrix; OpAsMatrix; OpSetItem 0%nat 5; OpAsMatrix;
                 OpAsMatrix; OpAsMatrix]
                [1; 2] res.1 res.2 (surjective_pairing res)) as H.
  simpl mutations in H. lia.
Defined.

Lemma list_setitem_atomic (key : nat) (item : Q) :
  atomic_failure (list_setitem key item).
Proof.
  intros content e content'. unfold list_setitem.
  destruct (decide _); now intros [= <-].
Qed.

Lemma table_load_atomic (disk : gmap string (list Q))
    (directory filename : string) :
  atomic_failure (table_load disk directory filename).
Proof.
  intros content e content'. unfold table_load.
  destruct (disk !! _); now intros [= <-].
Qed.

(** X16. When the failing calls of the base class leave the content as it
    was, the cache stays empty or equal to the assembly of the current
    content over any sequence of calls, also when the sequence ends in an
    exception: a caller that catches the exception can go on using
    [as_matrix]. *)
Theorem cache_coherent_after_failure (Content Key Item Mat : Type)
    (Base_setitem : Key -> Item -> M Content unit)
    (Base_load : string -> string -> M Content unit)
    (asmatrix : Content -> Mat)
    (os : list (op Key Item)) (s s' : Storage Content Mat)
    (r : result unit) :
  (forall key item, atomic_failure (Base_setitem key item)) ->
  (forall directory filename, atomic_failure (Base_load directory filename)) ->
  coherent Content Mat asmatrix s ->
  run_ops Content Key Item Mat Base_setitem Base_load asmatrix os s = (r, s') ->
  coherent Content Mat asmatrix s'.
Proof.
  intros Hset Hload. revert s. induction os as [|o os IH]; intros s Hco; simpl.
  - now intros [= <- <-].
  - unfold bind.
    destruct (run_op _ _ _ _ _ _ _ o s) as [[[]|e] s1] eqn:E.
    + intros Hrest. eapply IH; [|exact Hrest].
      exact (run_op_coherent_any _ _ _ _ _ _ _ o s s1 (Ok tt)
               Hset Hload Hco E).
    + intros [= <- <-].
      exact (run_op_coherent_any _ _ _ _ _ _ _ o s s1 (Raise e)
               Hset Hload Hco E).
Qed.

Lemma cache_coherent_after_failure_witness :
  run_ops (list Q) nat Q Matrix list_setitem (table_load disk0) row_matrix
    [OpAsMatrix; OpSetItem 9%nat 5] (new_storage (list Q) Matrix [1; 2])
  = (Raise IndexError,
     {| _content := [1; 2];
        _content_as_matrix := Some {| oid := 0; value := [[1; 2]] |};
        created := 1 |}) /\
  coherent (list Q) Matrix row_matrix
    {| _content := [1; 2];
       _content_as_matrix := Some {| oid := 0; value := [[1; 2]] |};
       created := 1 |}.
Proof.
  assert (Hrun :
    run_ops (list Q) nat Q Matrix list_setitem (table_load disk0) row_matrix
      [OpAsMatrix; OpSetItem 9%nat 5] (new_storage (list Q) Matrix [1; 2])
    = (Raise IndexError,
       {| _content := [1; 2];
          _content_as_matrix := Some {| oid := 0; value := [[1; 2]] |};
          created := 1 |})) by (vm_compute; reflexivity).
  split; [exact Hrun|].
  apply (cache_coherent_after_failure (list Q) nat Q Matrix list_setitem
           (table_load disk0) row_matrix [OpAsMatrix; OpSetItem 9%nat 5]
           (new_storage (list Q) Matrix [1; 2]) _ (Raise IndexError)
           list_setitem_atomic (table_load_atomic disk0)).
  - intros m. discriminate.
  - exact Hrun.
Defined.

(** X17. A storage built from another one takes over that storage's cached
    view by reference: while the source has a cached object, [as_matrix()]
    on the new storage returns that very object without assembling anything,
    whatever content the base class built for it; when the source has none,
    the first [as_matrix()] assembles the new storage's own content. *)
Theorem copy_shares_cache (Content Mat : Type)
    (Base_init_from : Content -> Content) (asmatrix : Content -> Mat)
    (arg1 : Storage Content Mat) :
  let copy := copy_storage Content Mat Base_init_from arg1 in
  (forall m, _content_as_matrix arg1 = Some m ->
     as_matrix Content Mat asmatrix copy = (Ok (Some m), copy) /\
     as_matrix Content Mat asmatrix arg1 = (Ok (Some m), arg1)) /\
  (_content_as_matrix arg1 = None ->
   exists m s,
     as_matrix Content Mat asmatrix copy = (Ok (Some m), s) /\
     value m = asmatrix (Base_init_from (_content arg1))).
Proof.
  intros copy. split.
  - intros m Hm. rewrite !as_matrix_run. unfold copy, copy_storage.
    cbn [_content_as_matrix]. rewrite Hm. split; reflexivity.
  - intros Hnone. rewrite as_matrix_run. unfold copy, copy_storage.
    cbn [_content_as_matrix]. rewrite Hnone. eexists _, _.
    split; reflexivity.
Qed.

Lemma copy_shares_cache_witness :
  let source :=
    (as_matrix (list Q) Matrix row_matrix
       (new_storage (list Q) Matrix [1; 2])).2 in
  let copy := copy_storage (list Q) Matrix (fun c => c) source in
  as_matrix (list Q) Matrix row_matrix copy
  = (Ok (Some {| oid := 0; value := [[1; 2]] |}), copy).
Proof.
  intros source copy.
  destruct (copy_shares_cache (list Q) Matrix (fun c => c) row_matrix source)
    as [Hshare _].
  apply (Hshare {| oid := 0; value := [[1; 2]] |}). reflexivity.
Defined.

(** X18. After a [__setitem__] that returns, the next [as_matrix()] returns
    an object created by that call, distinct from whatever object was cached
    before the write, and holding the assembly of the content as written; it
    leaves the content untouched. *)
Theorem view_after_write (Content Key Item Mat : Type)
    (Base_setitem : Key -> Item -> M Content unit)
    (asmatrix : Content -> Mat)
    (key : Key) (item : Item) (s s1 : Storage Content Mat) :
  coherent Content Mat asmatrix s ->
  __setitem__ Content Key Item Mat Base_setitem key item s = (Ok tt, s1) ->
  exists m s2,
    as_matrix Content Mat asmatrix s1 = (Ok (Some m), s2) /\
    _content s1 = (Base_setitem key item (_content s)).2 /\
    value m = asmatrix (_content s1) /\
    _content s2 = _content s1 /\
    (forall old, _content_as_matrix s = Some old -> oid m <> oid old).
Proof.
  intros Hco. rewrite setitem_run.
  destruct (Base_setitem key item (_content s)) as [[[]|e] c] eqn:Eb;
    intros [= <-].
  rewrite as_matrix_run. cbn [_content_as_matrix _content created].
  eexists _, _. split; [reflexivity|]. cbn [value oid snd _content].
  repeat split.
  intros old Hold. apply Hco in Hold as [_ Hlt]. lia.
Qed.

Lemma view_after_write_witness :
  let viewed :=
    (as_matrix (list Q) Matrix row_matrix
       (new_storage (list Q) Matrix [1; 2])).2 in
  exists m s2,
    as_matrix (list Q) Matrix row_matrix
      (__setitem__ (list Q) nat Q Matrix list_setitem 0%nat 5 viewed).2
    = (Ok (Some m), s2) /\
    value m = [[5; 2]] /\ oid m <> 0%nat.
Proof.
  intros viewed.
  destruct (view_after_write (list Q) nat Q Matrix list_setitem row_matrix
              0%nat 5 viewed
              (__setitem__ (list Q) nat Q Matrix list_setitem 0%nat 5 viewed).2)
    as (m & s2 & Hview & _ & Hval & _ & Hfresh).
  - intros m [= <-]. simpl. split; [reflexivity | lia].
  - reflexivity.
  - exists m, s2. split; [exact Hview|]. split.
    + rewrite Hval. reflexivity.
    + apply (Hfresh {| oid := 0; value := [[1; 2]] |}). reflexivity.
Defined.

(** * Mesh motion *)

Section MeshMotionFacts.

Import MeshMotion.

Variable dolfin : Dolfin.

Lemma append_owned_run (subdomain_id : Z) (dofs l : list nat)
    (d : gmap Z (list nat)) :
  d !! subdomain_id = Some l ->
  append_owned dolfin subdomain_id dofs d
  = MOk (<[subdomain_id := l ++ List.filter (owned dolfin) dofs]> d).
Proof.
  revert l d. induction dofs as [|dof dofs IH]; intros l d Hl; simpl.
  - now rewrite app_nil_r, insert_id.
  - destruct (owned dolfin dof); simpl.
    + rewrite Hl. simpl.
      rewrite (IH (l ++ [dof])) by apply lookup_insert_eq.
      now rewrite insert_insert_eq, <- app_assoc.
    + now apply IH.
Qed.

(** The dict after the loop over the cells, entry by entry. *)
Lemma visit_cells_run (cs : list nat) (d : gmap Z (list nat)) :
  exists d',
    visit_cells dolfin cs d = MOk d' /\
    forall subdomain_id,
      d' !! subdomain_id
      = match d !! subdomain_id with
        | Some l => Some (l ++ owned_dofs_of dolfin cs subdomain_id)
        | None => if seen dolfin cs subdomain_id
                  then Some (owned_dofs_of dolfin cs subdomain_id)
                  else None
        end.
Proof.
  revert d. induction cs as [|cell cs IH]; intros d.
  - exists d. split; [reflexivity|]. intros sid. simpl.
    destruct (d !! sid); [now rewrite app_nil_r | reflexivity].
  - cbn [visit_cells].
    set (sid0 := (Z.of_nat (subdomains dolfin cell) - 1)%Z).
    set (d1 := if decide (is_Some (d !! sid0)) then d else <[sid0:=[]]> d).
    assert (Hd1 : d1 !! sid0 = Some (default [] (d !! sid0))).
    { unfold d1. destruct (decide (is_Some (d !! sid0))) as [[l Hl] | Hn].
      - now rewrite Hl.
      - rewrite lookup_insert_eq. apply eq_None_not_Some in Hn.
        now rewrite Hn. }
    rewrite (append_owned_run sid0 _ _ d1 Hd1). cbn [mbind].
    destruct (IH (<[sid0 := default [] (d !! sid0)
                           ++ List.filter (owned dolfin)
                                          (cell_dofs dolfin cell)]> d1))
      as (d' & Hrun & Hd').
    exists d'. split; [exact Hrun|].
    intros sid. rewrite Hd'. unfold owned_dofs_of, seen. cbn [flat_map existsb].
    destruct (Z.eqb_spec sid0 sid) as [<- | Hne].
    + assert (Hm : marked dolfin sid0 cell = true) by apply Z.eqb_refl.
      rewrite Hm, lookup_insert_eq.
      destruct (d !! sid0) as [l|]; simpl; now rewrite ?app_assoc.
    + assert (Hm : marked dolfin sid cell = false)
        by (apply Z.eqb_neq; exact Hne).
      rewrite Hm, lookup_insert_ne by exact Hne.
      assert (Hsame : d1 !! sid = d !! sid).
      { unfold d1. destruct (decide _); [reflexivity|].
        now rewrite lookup_insert_ne. }
      rewrite Hsame. reflexivity.
Qed.

Lemma fill_lookup (ids : list Z) (d : gmap Z (list nat)) (subdomain_id : Z) :
  fill ids d !! subdomain_id
  = match d !! subdomain_id with
    | Some l => Some l
    | None => if decide (subdomain_id ∈ ids) then Some [] else None
    end.
Proof.
  revert d. induction ids as [|i ids IH]; intros d; cbn [fill].
  - destruct (d !! subdomain_id); [reflexivity|].
    case_decide as Hin; [|reflexivity]. now apply not_elem_of_nil in Hin.
  - rewrite IH. destruct (decide (is_Some (d !! i))) as [[l Hl] | Hn].
    + destruct (d !! subdomain_id) eqn:E; [reflexivity|].
      assert (Hne : subdomain_id <> i) by congruence.
      destruct (decide (subdomain_id ∈ ids)) as [Hin | Hnin].
      * rewrite decide_True by (apply elem_of_cons; now right). reflexivity.
      * rewrite decide_False; [reflexivity|].
        rewrite elem_of_cons. tauto.
    + apply eq_None_not_Some in Hn.
      destruct (decide (subdomain_id = i)) as [-> | Hne].
      * rewrite lookup_insert_eq, Hn.
        rewrite decide_True by (apply elem_of_cons; now left). reflexivity.
      * rewrite lookup_insert_ne by congruence.
        destruct (d !! subdomain_id); [reflexivity|].
        destruct (decide (subdomain_id ∈ ids)) as [Hin | Hnin].
        -- rewrite decide_True by (apply elem_of_cons; now right).
           reflexivity.
        -- rewrite decide_False; [reflexivity|].
           rewrite elem_of_cons. tauto.
Qed.

Lemma elem_of_keys (d : gmap Z (list nat)) (k : Z) :
  k ∈ keys d <-> is_Some (d !! k).
Proof.
  unfold keys. rewrite list_elem_of_fmap. split.
  - intros ([k' l] & -> & Hin). apply elem_of_map_to_list in Hin. eauto.
  - intros [l Hl]. exists (k, l). split; [reflexivity|].
    now apply elem_of_map_to_list.
Qed.

Lemma NoDup_keys (d : gmap Z (list nat)) : NoDup (keys d).
Proof. apply NoDup_fst_map_to_list. Qed.

Lemma foldl_min_spec (l : list Z) (x : Z) :
  foldl Z.min x l ∈ x :: l /\
  forall y, y ∈ x :: l -> (foldl Z.min x l <= y)%Z.
Proof.
  revert x. induction l as [|z l IH]; intros x; simpl.
  - split; [apply elem_of_cons; now left|].
    intros y Hy. apply list_elem_of_singleton in Hy. lia.
  - destruct (IH (Z.min x z)) as [Hin Hle]. split.
    + apply elem_of_cons in Hin as [Heq | Hin].
      * rewrite Heq. destruct (Z.min_spec x z) as [[_ ->] | [_ ->]].
        -- (apply elem_of_cons; now left).
        -- apply elem_of_cons. right. (apply elem_of_cons; now left).
      * apply elem_of_cons. right. apply elem_of_cons. now right.
    + intros y Hy. apply elem_of_cons in Hy as [Hy | Hy].
      * subst y.
        specialize (Hle (Z.min x z) ltac:(apply elem_of_cons; now left)). lia.
      * apply elem_of_cons in Hy as [Hy | Hy].
        -- subst y.
           specialize (Hle (Z.min x z) ltac:(apply elem_of_cons; now left)).
           lia.
        -- apply Hle. apply elem_of_cons. now right.
Qed.

Lemma foldl_max_spec (l : list Z) (x : Z) :
  foldl Z.max x l ∈ x :: l /\
  forall y, y ∈ x :: l -> (y <= foldl Z.max x l)%Z.
Proof.
  revert x. induction l as [|z l IH]; intros x; simpl.
  - split; [apply elem_of_cons; now left|].
    intros y Hy. apply list_elem_of_singleton in Hy. lia.
  - destruct (IH (Z.max x z)) as [Hin Hle]. split.
    + apply elem_of_cons in Hin as [Heq | Hin].
      * rewrite Heq. destruct (Z.max_spec x z) as [[_ ->] | [_ ->]].
        -- apply elem_of_cons. right. (apply elem_of_cons; now left).
        -- (apply elem_of_cons; now left).
      * apply elem_of_cons. right. apply elem_of_cons. now right.
    + intros y Hy. apply elem_of_cons in Hy as [Hy | Hy].
      * subst y.
        specialize (Hle (Z.max x z) ltac:(apply elem_of_cons; now left)). lia.
      * apply elem_of_cons in Hy as [Hy | Hy].
        -- subst y.
           specialize (Hle (Z.max x z) ltac:(apply elem_of_cons; now left)).
           lia.
        -- apply Hle. apply elem_of_cons. now right.
Qed.

Lemma py_min_spec (l : list Z) (m : Z) :
  py_min l = MOk m -> m ∈ l /\ forall y, y ∈ l -> (m <= y)%Z.
Proof.
  destruct l as [|x l]; [discriminate|]. intros [= <-]. apply foldl_min_spec.
Qed.

Lemma py_max_spec (l : list Z) (m : Z) :
  py_max l = MOk m -> m ∈ l /\ forall y, y ∈ l -> (y <= m)%Z.
Proof.
  destruct l as [|x l]; [discriminate|]. intros [= <-]. apply foldl_max_spec.
Qed.

(** A duplicate-free list of [M + 1] integers between 0 and [M] holds every
    one of them. *)
Lemma pigeonhole_range (l : list Z) (M : Z) :
  NoDup l ->
  (forall k, k ∈ l -> (0 <= k <= M)%Z) ->
  Z.of_nat (length l) = (M + 1)%Z ->
  forall k, (0 <= k <= M)%Z -> k ∈ l.
Proof.
  intros Hnd Hin Hlen k Hk.
  assert (Hsub : l ⊆+ zrange 0 (M + 1)).
  { apply NoDup_submseteq; [exact Hnd|]. intros x Hx. apply Hin in Hx.
    unfold zrange. apply list_elem_of_fmap. exists (Z.to_nat x).
    split; [lia|]. apply elem_of_seq. lia. }
  assert (Hperm : l ≡ₚ zrange 0 (M + 1)).
  { apply submseteq_length_Permutation; [exact Hsub|].
    unfold zrange. rewrite length_map, length_seq. lia. }
  rewrite Hperm. unfold zrange. apply list_elem_of_fmap.
  exists (Z.to_nat k). split; [lia|]. apply elem_of_seq. lia.
Qed.

(** What a returning constructor has computed. *)
Lemma constructor_inversion (coords : list (list Q))
    (expr : list (list string)) (self : t) :
  __init__ dolfin coords expr = MOk self ->
  exists d0 local_min local_max,
    visit_cells dolfin (cells dolfin) ∅ = MOk d0 /\
    (forall subdomain_id,
       d0 !! subdomain_id
       = if seen dolfin (cells dolfin) subdomain_id
         then Some (owned_dofs_of dolfin (cells dolfin) subdomain_id)
         else None) /\
    let d := fill (zrange (allreduce_min dolfin local_min)
                          (allreduce_max dolfin local_max + 1)) d0 in
    py_min (keys d) = MOk 0%Z /\
    py_max (keys d) = MOk (Z.of_nat (length (keys d)) - 1)%Z /\
    length expr = length (keys d) /\
    self = {| coordinates := coords;
              reference_coordinates := coords;
              subdomain_id_to_deformation_dofs := d;
              shape_parametrization_expression := expr;
              displacement_expression := None |}.
Proof.
  unfold __init__.
  destruct (visit_cells_run (cells dolfin) ∅) as (d0 & Hvisit & Hd0).
  rewrite Hvisit. cbn [mbind].
  destruct (py_min (keys d0)) as [local_min|] eqn:Emin; [|discriminate].
  cbn [mbind].
  destruct (py_max (keys d0)) as [local_max|] eqn:Emax; [|discriminate].
  cbn [mbind].
  set (d := fill _ d0).
  destruct (py_min (keys d)) as [least|] eqn:El; [|discriminate].
  cbn [mbind]. unfold massert at 1.
  destruct (Z.eqb_spec least 0) as [-> | Hne]; [|discriminate].
  cbn [mbind].
  destruct (py_max (keys d)) as [greatest|] eqn:Eg; [|discriminate].
  cbn [mbind]. unfold massert at 1.
  destruct (Z.eqb_spec (Z.of_nat (length (keys d))) (greatest + 1))
    as [Hlen | Hne]; [|discriminate].
  cbn [mbind]. unfold massert at 1.
  destruct (Nat.eqb_spec (length expr) (length (keys d)))
    as [Hexpr | Hne]; [|discriminate].
  cbn [mbind]. intros [= <-].
  exists d0, local_min, local_max. split; [reflexivity|]. split.
  { intros sid. rewrite Hd0, lookup_empty. reflexivity. }
  fold d. cbv zeta. repeat split; auto.
  rewrite Eg. f_equal. lia.
Qed.

Lemma owned_dofs_of_unseen (cs : list nat) (subdomain_id : Z) :
  seen dolfin cs subdomain_id = false ->
  owned_dofs_of dolfin cs subdomain_id = [].
Proof.
  unfold seen, owned_dofs_of. induction cs as [|cell cs IH]; simpl.
  - reflexivity.
  - intros H. apply orb_false_iff in H as [Hm Hrest].
    rewrite Hm. simpl. now apply IH.
Qed.

Lemma elem_of_owned_dofs_of (cs : list nat) (subdomain_id : Z) (dof : nat) :
  dof ∈ owned_dofs_of dolfin cs subdomain_id <->
  owned dolfin dof = true /\
  exists cell, cell ∈ cs /\
               (Z.of_nat (subdomains dolfin cell) = subdomain_id + 1)%Z /\
               dof ∈ cell_dofs dolfin cell.
Proof.
  unfold owned_dofs_of. rewrite list_elem_of_In, in_flat_map. split.
  - intros (cell & Hcell & Hin). unfold marked in Hin.
    destruct (Z.eqb_spec (Z.of_nat (subdomains dolfin cell) - 1) subdomain_id)
      as [Heq | Hne]; [|destruct Hin].
    apply filter_In in Hin as [Hin Hown]. split; [exact Hown|].
    exists cell. rewrite !list_elem_of_In. repeat split; auto. lia.
  - intros (Hown & cell & Hcell & Hmark & Hin). exists cell.
    rewrite list_elem_of_In in Hcell, Hin. split; [exact Hcell|].
    unfold marked.
    replace (Z.of_nat (subdomains dolfin cell) - 1 =? subdomain_id)%Z
      with true by (symmetry; apply Z.eqb_eq; lia).
    apply filter_In. split; assumption.
Qed.

Lemma constructed_lookup (coords : list (list Q)) (expr : list (list string))
    (self : t) (subdomain_id : Z) (l : list nat) :
  __init__ dolfin coords expr = MOk self ->
  subdomain_id_to_deformation_dofs self !! subdomain_id = Some l ->
  l = owned_dofs_of dolfin (cells dolfin) subdomain_id.
Proof.
  intros Hinit Hl.
  apply constructor_inversion in Hinit
    as (d0 & lmin & lmax & _ & Hd0 & _ & _ & _ & ->).
  cbn [subdomain_id_to_deformation_dofs] in Hl.
  rewrite fill_lookup, Hd0 in Hl.
  destruct (seen dolfin (cells dolfin) subdomain_id) eqn:Es; cbn in Hl.
  - now injection Hl as <-.
  - rewrite (owned_dofs_of_unseen _ _ Es).
    destruct (decide _); [now injection Hl as <- | discriminate].
Qed.

Lemma constructed_keys (coords : list (list Q)) (expr : list (list string))
    (self : t) (k : Z) :
  __init__ dolfin coords expr = MOk self ->
  is_Some (subdomain_id_to_deformation_dofs self !! k) <->
  (0 <= k < Z.of_nat (length expr))%Z.
Proof.
  intros Hinit.
  apply constructor_inversion in Hinit
    as (d0 & lmin & lmax & _ & _ & Hmin & Hmax & Hlen & ->).
  cbn [subdomain_id_to_deformation_dofs].
  set (d := fill _ d0) in *.
  apply py_min_spec in Hmin as [_ Hleast].
  apply py_max_spec in Hmax as [_ Hgreatest].
  rewrite <- elem_of_keys, Hlen. split.
  - intros Hk. specialize (Hleast k Hk). specialize (Hgreatest k Hk). lia.
  - intros Hk.
    apply (pigeonhole_range (keys d) (Z.of_nat (length (keys d)) - 1)).
    + apply NoDup_keys.
    + intros x Hx. specialize (Hleast x Hx). specialize (Hgreatest x Hx). lia.
    + lia.
    + lia.
Qed.

End MeshMotionFacts.

Section MeshMotionErrors.

Import MeshMotion.

Variable dolfin : Dolfin.

Lemma keys_nonempty (d : gmap Z (list nat)) (k : Z) :
  is_Some (d !! k) -> keys d <> [].
Proof.
  intros Hk Hnil. apply elem_of_keys in Hk. rewrite Hnil in Hk.
  now apply not_elem_of_nil in Hk.
Qed.

Lemma py_min_nonempty (l : list Z) : l <> [] -> exists m, py_min l = MOk m.
Proof. destruct l; [congruence | eauto]. Qed.

Lemma py_max_nonempty (l : list Z) : l <> [] -> exists m, py_max l = MOk m.
Proof. destruct l; [congruence | eauto]. Qed.

Lemma elem_of_zrange (a b k : Z) : k ∈ zrange a b <-> (a <= k < b)%Z.
Proof.
  unfold zrange. rewrite list_elem_of_fmap. split.
  - intros (i & -> & Hi). apply elem_of_seq in Hi. lia.
  - intros Hk. exists (Z.to_nat (k - a)). split; [lia|].
    apply elem_of_seq. lia.
Qed.

Lemma NoDup_zrange (a b : Z) : NoDup (zrange a b).
Proof.
  unfold zrange. apply NoDup_fmap_2; [|apply NoDup_seq].
  intros i j H. lia.
Qed.

Lemma fill_keeps (ids : list Z) (d : gmap Z (list nat)) (k : Z) :
  is_Some (d !! k) -> is_Some (fill ids d !! k).
Proof. intros [l Hl]. rewrite fill_lookup, Hl. eauto. Qed.

Lemma visited_first_cell (cell : nat) (cs : list nat)
    (d0 : gmap Z (list nat)) :
  (forall subdomain_id,
     d0 !! subdomain_id
     = if seen dolfin (cell :: cs) subdomain_id
       then Some (owned_dofs_of dolfin (cell :: cs) subdomain_id)
       else None) ->
  is_Some (d0 !! (Z.of_nat (subdomains dolfin cell) - 1)%Z).
Proof.
  intros Hd0. rewrite Hd0. unfold seen. cbn [existsb].
  unfold marked at 1. rewrite Z.eqb_refl. simpl. eauto.
Qed.

(** The constructor, when the mesh has at least one cell, up to its three
    assertions. *)
Lemma constructor_outcomes (coords : list (list Q))
    (expr : list (list string)) :
  match cells dolfin with
  | [] => __init__ dolfin coords expr = MRaise (Builtin ValueError)
  | _ :: _ =>
      (exists self, __init__ dolfin coords expr = MOk self) \/
      __init__ dolfin coords expr = MRaise (Builtin AssertionError)
  end.
Proof.
  unfold __init__.
  destruct (visit_cells_run dolfin (cells dolfin) ∅) as (d0 & Hvisit & Hd0).
  rewrite Hvisit. cbn [mbind].
  destruct (cells dolfin) as [|cell cs] eqn:Ecells.
  - simpl in Hvisit. injection Hvisit as <-.
    unfold keys. rewrite map_to_list_empty. reflexivity.
  - assert (Hkey : is_Some (d0 !! (Z.of_nat (subdomains dolfin cell) - 1)%Z)).
    { apply (visited_first_cell cell cs). intros sid.
      rewrite Hd0, lookup_empty. reflexivity. }
    destruct (py_min_nonempty (keys d0) (keys_nonempty _ _ Hkey))
      as [lmin ->].
    destruct (py_max_nonempty (keys d0) (keys_nonempty _ _ Hkey))
      as [lmax ->].
    cbn [mbind]. set (d := fill _ d0).
    assert (Hkey' : is_Some (d !! (Z.of_nat (subdomains dolfin cell) - 1)%Z))
      by (apply fill_keeps; exact Hkey).
    destruct (py_min_nonempty (keys d) (keys_nonempty _ _ Hkey'))
      as [least ->].
    destruct (py_max_nonempty (keys d) (keys_nonempty _ _ Hkey'))
      as [greatest ->].
    cbn [mbind]. unfold massert.
    destruct (least =? 0)%Z; cbn [mbind]; [|now right].
    destruct (Z.of_nat (length (keys d)) =? greatest + 1)%Z;
      cbn [mbind]; [|now right].
    destruct (length expr =? length (keys d))%nat; cbn [mbind];
      [left; eauto | now right].
Qed.

End MeshMotionErrors.

(** X21. The constructor of [MeshMotion] raises [ValueError] exactly when
    the mesh has no cell on this participant ([min] of an empty key
    sequence); on a mesh with cells it either returns or fails one of its
    three assertions, and it never raises [KeyError]. *)
Theorem constructor_errors (dolfin : MeshMotion.Dolfin)
    (coords : list (list Q)) (expr : list (list string)) :
  (MeshMotion.__init__ dolfin coords expr
   = MeshMotion.MRaise (MeshMotion.Builtin ValueError) <->
   MeshMotion.cells dolfin = []) /\
  forall e, MeshMotion.__init__ dolfin coords expr = MeshMotion.MRaise e ->
    e = MeshMotion.Builtin ValueError \/
    e = MeshMotion.Builtin AssertionError.
Proof.
  pose proof (constructor_outcomes dolfin coords expr) as H.
  destruct (MeshMotion.cells dolfin) as [|cell cs].
  - rewrite H. split; [tauto|]. intros e [= <-]. now left.
  - destruct H as [[self ->] | ->].
    + split; [split; discriminate | discriminate].
    + split; [split; discriminate|]. intros e [= <-]. now right.
Qed.

Lemma constructor_errors_witness :
  MeshMotion.__init__ MeshMotion.two_cells MeshMotion.square
    [["x[0]"; "x[1]"]]%string
  = MeshMotion.MRaise (MeshMotion.Builtin AssertionError).
Proof.
  destruct (constructor_errors MeshMotion.two_cells MeshMotion.square
              [["x[0]"; "x[1]"]]%string) as [_ Hexn].
  destruct (MeshMotion.__init__ MeshMotion.two_cells MeshMotion.square
              [["x[0]"; "x[1]"]]%string) as [self|e] eqn:E.
  - vm_compute in E. discriminate.
  - destruct (Hexn e eq_refl) as [-> | ->]; [|reflexivity].
    vm_compute in E. discriminate.
Defined.

(** X19. When the constructor of [MeshMotion] returns, the keys of
    [subdomain_id_to_deformation_dofs] are exactly [0 .. n-1] with [n] the
    number of entries of the shape parametrization; the object holds the
    coordinates it was given, also as its reference copy, and has no
    displacement expressions yet. *)
Theorem constructor_contiguous (dolfin : MeshMotion.Dolfin)
    (coords : list (list Q)) (expr : list (list string)) (self : MeshMotion.t) :
  MeshMotion.__init__ dolfin coords expr = MeshMotion.MOk self ->
  (forall k : Z,
     is_Some (MeshMotion.subdomain_id_to_deformation_dofs self !! k) <->
     (0 <= k < Z.of_nat (length expr))%Z) /\
  MeshMotion.shape_parametrization_expression self = expr /\
  MeshMotion.coordinates self = coords /\
  MeshMotion.reference_coordinates self = coords /\
  MeshMotion.displacement_expression self = None.
Proof.
  intros Hinit. split.
  - intros k. now apply (constructed_keys dolfin coords expr).
  - apply constructor_inversion in Hinit
      as (d0 & lmin & lmax & _ & _ & _ & _ & _ & ->).
    repeat split.
Qed.

Lemma constructor_contiguous_witness :
  exists self,
    MeshMotion.__init__ MeshMotion.two_cells MeshMotion.square
      MeshMotion.stretch = MeshMotion.MOk self /\
    is_Some (MeshMotion.subdomain_id_to_deformation_dofs self !! 1%Z) /\
    ~ is_Some (MeshMotion.subdomain_id_to_deformation_dofs self !! 2%Z).
Proof.
  destruct (MeshMotion.__init__ MeshMotion.two_cells MeshMotion.square
              MeshMotion.stretch) as [self|e] eqn:E;
    [|vm_compute in E; discriminate].
  exists self. split; [reflexivity|].
  destruct (constructor_contiguous MeshMotion.two_cells MeshMotion.square
              MeshMotion.stretch self E) as [Hkeys _].
  split.
  - apply Hkeys. simpl. lia.
  - intros H. apply Hkeys in H. simpl in H. lia.
Defined.

(** X20. When the constructor returns, the list stored for a subdomain id
    is, in cell order, the dofs of the cells carrying marker [id + 1] that
    this participant owns, a dof once for every such cell that has it: a dof
    is in the list exactly when it is owned and belongs to a cell of that
    subdomain. *)
Theorem constructor_dofs (dolfin : MeshMotion.Dolfin)
    (coords : list (list Q)) (expr : list (list string)) (self : MeshMotion.t)
    (subdomain_id : Z) (l : list nat) :
  MeshMotion.__init__ dolfin coords expr = MeshMotion.MOk self ->
  MeshMotion.subdomain_id_to_deformation_dofs self !! subdomain_id = Some l ->
  l = flat_map
        (fun cell =>
           if (Z.of_nat (MeshMotion.subdomains dolfin cell) - 1
               =? subdomain_id)%Z
           then List.filter (MeshMotion.owned dolfin)
                            (MeshMotion.cell_dofs dolfin cell)
           else [])
        (MeshMotion.cells dolfin) /\
  forall dof,
    dof ∈ l <->
    MeshMotion.owned dolfin dof = true /\
    exists cell,
      cell ∈ MeshMotion.cells dolfin /\
      (Z.of_nat (MeshMotion.subdomains dolfin cell) = subdomain_id + 1)%Z /\
      dof ∈ MeshMotion.cell_dofs dolfin cell.
Proof.
  intros Hinit Hl.
  pose proof (constructed_lookup dolfin coords expr self subdomain_id l
                Hinit Hl) as ->.
  split; [reflexivity|].
  intros dof. apply elem_of_owned_dofs_of.
Qed.

Lemma constructor_dofs_witness :
  exists self,
    MeshMotion.__init__ MeshMotion.two_cells MeshMotion.square
      MeshMotion.stretch = MeshMotion.MOk self /\
    MeshMotion.subdomain_id_to_deformation_dofs self !! 1%Z
    = Some [2; 3; 4; 5]%nat.
Proof.
  destruct (MeshMotion.__init__ MeshMotion.two_cells MeshMotion.square
              MeshMotion.stretch) as [self|e] eqn:E;
    [|vm_compute in E; discriminate].
  exists self. split; [reflexivity|].
  destruct (MeshMotion.subdomain_id_to_deformation_dofs self !! 1%Z)
    as [l|] eqn:El.
  - destruct (constructor_dofs MeshMotion.two_cells MeshMotion.square
                MeshMotion.stretch self 1%Z l E El) as [-> _].
    reflexivity.
  - exfalso.
    destruct (constructed_keys MeshMotion.two_cells MeshMotion.square
                MeshMotion.stretch self 1%Z E) as [_ Hk].
    rewrite El in Hk. destruct Hk as [x Hx]; [simpl; lia | discriminate].
Defined.

Section MeshMotionSerial.

Import MeshMotion.

Variable dolfin : Dolfin.

Lemma seen_iff (cs : list nat) (subdomain_id : Z) :
  seen dolfin cs subdomain_id = true <->
  exists cell, cell ∈ cs /\
               (Z.of_nat (subdomains dolfin cell) = subdomain_id + 1)%Z.
Proof.
  unfold seen. rewrite existsb_exists. unfold marked. split.
  - intros (cell & Hin & Hm). exists cell. rewrite list_elem_of_In.
    apply Z.eqb_eq in Hm. split; [exact Hin | lia].
  - intros (cell & Hin & Hm). exists cell. rewrite list_elem_of_In in Hin.
    split; [exact Hin|]. apply Z.eqb_eq. lia.
Qed.

(** X22. In a serial run (the reductions return their argument), when the
    markers found on the cells are exactly [1 .. n] and the shape
    parametrization has [n >= 1] entries, the constructor of [MeshMotion]
    returns. *)
Theorem constructor_returns (coords : list (list Q))
    (expr : list (list string)) :
  (forall x, allreduce_min dolfin x = x) ->
  (forall x, allreduce_max dolfin x = x) ->
  (1 <= length expr)%nat ->
  (forall cell, cell ∈ cells dolfin ->
     (1 <= subdomains dolfin cell <= length expr)%nat) ->
  (forall marker, (1 <= marker <= length expr)%nat ->
     exists cell, cell ∈ cells dolfin /\ subdomains dolfin cell = marker) ->
  exists self, __init__ dolfin coords expr = MOk self.
Proof.
  intros Hmin Hmax Hn Hmarks Hall.
  assert (Hseen : forall sid, seen dolfin (cells dolfin) sid = true <->
                              (0 <= sid < Z.of_nat (length expr))%Z).
  { intros sid. rewrite seen_iff. split.
    - intros (cell & Hin & Hm). apply Hmarks in Hin. lia.
    - intros Hsid. destruct (Hall (Z.to_nat (sid + 1))) as (cell & Hin & Hm);
        [lia|]. exists cell. split; [exact Hin | lia]. }
  unfold __init__.
  destruct (visit_cells_run dolfin (cells dolfin) ∅) as (d0 & Hvisit & Hd0).
  rewrite Hvisit. cbn [mbind].
  assert (Hk0 : forall k, k ∈ keys d0 <-> (0 <= k < Z.of_nat (length expr))%Z).
  { intros k. rewrite elem_of_keys, Hd0, lookup_empty, <- Hseen.
    destruct (seen dolfin (cells dolfin) k); split;
      (eauto || discriminate || (intros [x Hx]; discriminate)). }
  assert (Hne0 : keys d0 <> []).
  { intros Hnil. assert (H0 : 0%Z ∈ keys d0) by (apply Hk0; lia).
    rewrite Hnil in H0. now apply not_elem_of_nil in H0. }
  destruct (py_min_nonempty (keys d0) Hne0) as [lmin Elmin].
  destruct (py_max_nonempty (keys d0) Hne0) as [lmax Elmax].
  rewrite Elmin, Elmax. cbn [mbind]. rewrite Hmin, Hmax.
  apply py_min_spec in Elmin as [Hlmin _].
  apply py_max_spec in Elmax as [Hlmax _].
  apply Hk0 in Hlmin. apply Hk0 in Hlmax.
  set (d := fill _ d0).
  assert (Hk : forall k, k ∈ keys d <-> (0 <= k < Z.of_nat (length expr))%Z).
  { intros k. rewrite elem_of_keys. unfold d. rewrite fill_lookup.
    pose proof (Hk0 k) as Hk0k. rewrite elem_of_keys in Hk0k.
    destruct (d0 !! k) as [l|] eqn:El.
    - split; [intros _; apply Hk0k; eauto | eauto].
    - destruct (decide (k ∈ zrange lmin (lmax + 1))) as [Hin | Hnin].
      + apply elem_of_zrange in Hin. split; [lia | eauto].
      + split; [intros [x Hx]; discriminate|].
        intros Hr. apply Hk0k in Hr as [x Hx]. discriminate. }
  assert (Hne : keys d <> []).
  { intros Hnil. assert (H0 : 0%Z ∈ keys d) by (apply Hk; lia).
    rewrite Hnil in H0. now apply not_elem_of_nil in H0. }
  assert (Hlen : length (keys d) = length expr).
  { assert (Hperm : keys d ≡ₚ zrange 0 (Z.of_nat (length expr))).
    { apply NoDup_Permutation; [apply NoDup_keys | apply NoDup_zrange|].
      intros k. rewrite Hk, elem_of_zrange. reflexivity. }
    rewrite Hperm. unfold zrange. rewrite length_map, length_seq. lia. }
  destruct (py_min_nonempty (keys d) Hne) as [least Eleast].
  destruct (py_max_nonempty (keys d) Hne) as [greatest Egreatest].
  rewrite Eleast, Egreatest. cbn [mbind].
  apply py_min_spec in Eleast as [Hl1 Hl2].
  apply py_max_spec in Egreatest as [Hg1 Hg2].
  assert (least = 0%Z) as ->.
  { apply Hk in Hl1. specialize (Hl2 0%Z ltac:(apply Hk; lia)). lia. }
  assert (greatest = (Z.of_nat (length expr) - 1)%Z) as ->.
  { apply Hk in Hg1.
    specialize (Hg2 (Z.of_nat (length expr) - 1)%Z ltac:(apply Hk; lia)).
    lia. }
  unfold massert. cbn [Z.eqb mbind].
  rewrite Hlen.
  replace (Z.of_nat (length expr) =? Z.of_nat (length expr) - 1 + 1)%Z
    with true by (symmetry; apply Z.eqb_eq; lia).
  cbn [mbind]. rewrite Nat.eqb_refl. cbn [mbind]. eauto.
Qed.

End MeshMotionSerial.

Lemma constructor_returns_witness :
  exists self,
    MeshMotion.__init__ MeshMotion.two_cells MeshMotion.square
      MeshMotion.stretch = MeshMotion.MOk self.
Proof.
  apply (constructor_returns MeshMotion.two_cells MeshMotion.square
           MeshMotion.stretch).
  - reflexivity.
  - reflexivity.
  - simpl. lia.
  - intros cell Hin. simpl in Hin.
    apply elem_of_cons in Hin as [-> | Hin]; [simpl; lia|].
    apply list_elem_of_singleton in Hin as ->. simpl. lia.
  - intros marker Hm. simpl in Hm. exists (marker - 1)%nat. split.
    + simpl. destruct marker as [|[|[|m]]]; try lia; simpl.
      * apply elem_of_cons. now left.
      * apply elem_of_cons. right. apply elem_of_cons. now left.
    + simpl. lia.
Defined.

Section MeshMotionInit.

Import MeshMotion.

Variable dolfin : Dolfin.

Lemma set_displacement_expression_id (self : t) (built : list (list string)) :
  displacement_expression self = Some built ->
  set_displacement_expression (Some built) self = self.
Proof. destruct self; simpl. now intros ->. Qed.

Lemma init_loop_run (exprs : list (list string)) (self : t)
    (built : list (list string)) :
  displacement_expression self = Some built ->
  init_loop dolfin exprs self
  = (if forallb (well_sized dolfin) exprs
     then MOk tt else MRaise (Builtin AssertionError),
     set_displacement_expression
       (Some (built ++ map (imap displacement_component)
                           (sized_prefix dolfin exprs)))
       self).
Proof.
  revert self built. induction exprs as [|e exprs IH]; intros self built Hb.
  - simpl. now rewrite app_nil_r, set_displacement_expression_id.
  - cbn [init_loop forallb sized_prefix].
    change (length e =? geometry_dim dolfin)%nat with (well_sized dolfin e).
    destruct (well_sized dolfin e).
    + rewrite Hb. rewrite (IH _ (built ++ [imap displacement_component e]))
        by reflexivity.
      cbn [andb map]. now rewrite <- app_assoc.
    + cbn [andb map]. now rewrite app_nil_r, set_displacement_expression_id.
Qed.

Lemma sized_prefix_all (exprs : list (list string)) :
  forallb (well_sized dolfin) exprs = true -> sized_prefix dolfin exprs = exprs.
Proof.
  induction exprs as [|e exprs IH]; [reflexivity|]. cbn [forallb sized_prefix].
  intros H. apply andb_true_iff in H as [-> H]. now rewrite IH.
Qed.

(** X23. [init] returns exactly when every entry of the shape
    parametrization has one component per geometric dimension; it then holds
    one displacement expression per subdomain, component [i] being the shape
    component followed by [" - x[i]"].  Otherwise it raises
    [AssertionError] and leaves the expressions of the subdomains that come
    before the first ill-sized entry.  Whatever the object held as
    displacement expressions before is dropped, so running [init] again
    gives the same outcome and the same object. *)
Theorem init_outcome (self : t) :
  let exprs := shape_parametrization_expression self in
  init dolfin self
  = (if forallb (well_sized dolfin) exprs
     then MOk tt else MRaise (Builtin AssertionError),
     set_displacement_expression
       (Some (map (imap displacement_component) (sized_prefix dolfin exprs)))
       self) /\
  (forallb (well_sized dolfin) exprs = true ->
   sized_prefix dolfin exprs = exprs) /\
  (forall e i T, e !! i = Some T ->
     imap displacement_component e !! i
     = Some (T +:+ " - x[" +:+ str_int i +:+ "]")) /\
  init dolfin (init dolfin self).2 = init dolfin self.
Proof.
  intros exprs.
  assert (Hrun : forall s, shape_parametrization_expression s = exprs ->
    init dolfin s
    = (if forallb (well_sized dolfin) exprs
       then MOk tt else MRaise (Builtin AssertionError),
       set_displacement_expression
         (Some (map (imap displacement_component)
                    (sized_prefix dolfin exprs))) s)).
  { intros s Hs. unfold init. rewrite Hs.
    rewrite (init_loop_run exprs _ []) by reflexivity. reflexivity. }
  split; [apply Hrun; reflexivity|].
  split; [apply sized_prefix_all|].
  split.
  - intros e i T HT. rewrite list_lookup_imap, HT. reflexivity.
  - rewrite (Hrun self eq_refl). cbn [snd].
    rewrite Hrun by reflexivity. reflexivity.
Qed.

End MeshMotionInit.

Lemma init_outcome_witness :
  exists self,
    MeshMotion.__init__ MeshMotion.two_cells MeshMotion.square
      MeshMotion.stretch = MeshMotion.MOk self /\
    MeshMotion.displacement_expression
      (MeshMotion.init MeshMotion.two_cells self).2
    = Some [["2*x[0] - x[0]"; "x[1] - x[1]"];
            ["x[0] - x[0]"; "mu[0]*x[1] - x[1]"]]%string.
Proof.
  destruct (MeshMotion.__init__ MeshMotion.two_cells MeshMotion.square
              MeshMotion.stretch) as [self|e] eqn:E;
    [|vm_compute in E; discriminate].
  exists self. split; [reflexivity|].
  destruct (init_outcome MeshMotion.two_cells self) as (Hrun & _).
  rewrite Hrun. vm_compute in E. injection E as <-. reflexivity.
Defined.

Section MeshMotionDisplacement.

Import MeshMotion.

Variable dolfin : Dolfin.

Lemma read_at_run (src : list Q) (dofs : list nat) :
  Forall (fun dof => (dof < length src)%nat) dofs ->
  read_at src dofs = MOk (map (fun dof => default 0 (src !! dof)) dofs).
Proof.
  induction 1 as [|dof dofs Hdof _ IH]; [reflexivity|].
  cbn [read_at map]. rewrite IH.
  destruct (src !! dof) as [v|] eqn:Hv; [reflexivity|].
  apply lookup_ge_None in Hv. lia.
Qed.

Lemma read_at_outcome (src : list Q) (dofs : list nat) :
  (exists vals, read_at src dofs = MOk vals /\ length vals = length dofs) \/
  read_at src dofs = MRaise (Builtin IndexError).
Proof.
  induction dofs as [|dof dofs IH]; [left; eauto|].
  cbn [read_at]. destruct (src !! dof) as [v|]; [|now right].
  destruct IH as [(vals & -> & Hlen) | ->]; [left | now right].
  cbn [mbind]. eexists. split; [reflexivity|]. simpl. now rewrite Hlen.
Qed.

Lemma write_at_outcome (dst : list Q) (dofs : list nat) (vals : list Q) :
  (exists v, write_at dst dofs vals = MOk v /\ length v = length dst) \/
  write_at dst dofs vals = MRaise (Builtin IndexError).
Proof.
  revert dst vals. induction dofs as [|dof dofs IH]; intros dst vals.
  - left. exists dst. now destruct vals.
  - destruct vals as [|v vals]; [left; eauto|]. cbn [write_at].
    destruct (decide (dof < length dst)%nat); [|now right].
    destruct (IH (<[dof:=v]> dst) vals) as [(w & -> & Hlen) | ->];
      [left | now right].
    exists w. split; [reflexivity|]. now rewrite Hlen, length_insert.
Qed.

(** [dst[dofs] = src[dofs]] with every index in range: the entries at
    [dofs] come from [src], the others stay. *)
Lemma write_at_run (n : nat) (src dst : list Q) (dofs : list nat) :
  Forall (fun dof => (dof < n)%nat) dofs ->
  length src = n -> length dst = n ->
  exists v,
    write_at dst dofs (map (fun dof => default 0 (src !! dof)) dofs) = MOk v /\
    length v = n /\
    forall i, v !! i = if decide (i ∈ dofs) then src !! i else dst !! i.
Proof.
  intros Hdofs Hsrc. revert dst.
  induction Hdofs as [|dof dofs Hdof _ IH]; intros dst Hdst.
  - exists dst. split; [reflexivity|]. split; [exact Hdst|]. intros i.
    rewrite decide_False by apply not_elem_of_nil. reflexivity.
  - cbn [map write_at]. rewrite decide_True by lia.
    destruct (IH (<[dof := default 0 (src !! dof)]> dst))
      as (v & Hrun & Hlen & Hv); [now rewrite length_insert|].
    exists v. split; [exact Hrun|]. split; [exact Hlen|].
    intros i. rewrite Hv.
    destruct (decide (i ∈ dofs)) as [Hin | Hnin].
    + rewrite decide_True by (apply elem_of_cons; now right). reflexivity.
    + destruct (decide (i = dof)) as [-> | Hne].
      * rewrite decide_True by (apply elem_of_cons; now left).
        rewrite list_lookup_insert_eq by lia.
        destruct (src !! dof) as [x|] eqn:Ex; [reflexivity|].
        apply lookup_ge_None in Ex. lia.
      * rewrite decide_False by (rewrite elem_of_cons; tauto).
        now rewrite list_lookup_insert_ne.
Qed.

Lemma displace_outcome (self : t) (exprs : list (list string)) (k : nat)
    (v : list Q) :
  (forall j, (j < length exprs)%nat ->
     is_Some (subdomain_id_to_deformation_dofs self !! Z.of_nat (k + j))) ->
  (exists v', displace dolfin self k exprs v = MOk v' /\
              length v' = length v) \/
  displace dolfin self k exprs v = MRaise (Builtin IndexError).
Proof.
  revert k v. induction exprs as [|e exprs IH]; intros k v Hkeys.
  - left. eauto.
  - cbn [displace].
    destruct (Hkeys 0%nat ltac:(simpl; lia)) as [dofs Hdofs].
    rewrite Nat.add_0_r in Hdofs. rewrite Hdofs.
    destruct (read_at_outcome (interpolate dolfin e) dofs)
      as [(vals & -> & _) | ->]; [|now right].
    cbn [mbind].
    destruct (write_at_outcome v dofs vals) as [(v1 & -> & Hlen) | ->];
      [|now right].
    cbn [mbind].
    destruct (IH (S k) v1) as [(v' & Hrun & Hlen') | Hrun].
    + intros j Hj. specialize (Hkeys (S j) ltac:(simpl; lia)).
      now replace (S k + j)%nat with (k + S j)%nat by lia.
    + left. exists v'. split; [exact Hrun | lia].
    + now right.
Qed.

Lemma displace_run (self : t) (n : nat) (exprs : list (list string))
    (k : nat) (v : list Q) :
  (forall e, length (interpolate dolfin e) = n) ->
  length v = n ->
  (forall j, (j < length exprs)%nat ->
     exists dofs,
       subdomain_id_to_deformation_dofs self !! Z.of_nat (k + j) = Some dofs /\
       Forall (fun dof => (dof < n)%nat) dofs) ->
  exists v',
    displace dolfin self k exprs v = MOk v' /\
    length v' = n /\
    (forall i,
       (forall j dofs, (j < length exprs)%nat ->
          subdomain_id_to_deformation_dofs self !! Z.of_nat (k + j)
          = Some dofs -> i ∉ dofs) ->
       v' !! i = v !! i) /\
    (forall i j e dofs,
       exprs !! j = Some e ->
       subdomain_id_to_deformation_dofs self !! Z.of_nat (k + j) = Some dofs ->
       i ∈ dofs ->
       (forall j' dofs', (j < j' < length exprs)%nat ->
          subdomain_id_to_deformation_dofs self !! Z.of_nat (k + j')
          = Some dofs' -> i ∉ dofs') ->
       v' !! i = interpolate dolfin e !! i).
Proof.
  intros Hinterp. revert k v.
  induction exprs as [|e exprs IH]; intros k v Hlen Hkeys.
  - exists v. split; [reflexivity|]. split; [exact Hlen|]. split.
    + reflexivity.
    + intros i j e dofs He. discriminate.
  - cbn [displace].
    destruct (Hkeys 0%nat ltac:(simpl; lia)) as (dofs0 & Hdofs0 & Hb0).
    rewrite Nat.add_0_r in Hdofs0. rewrite Hdofs0.
    rewrite read_at_run
      by (rewrite Hinterp; exact Hb0).
    cbn [mbind].
    destruct (write_at_run n (interpolate dolfin e) v dofs0 Hb0
                (Hinterp e) Hlen) as (v1 & -> & Hlen1 & Hv1).
    cbn [mbind].
    destruct (IH (S k) v1 Hlen1) as (v' & Hrun & Hlen' & Hnone & Hlast).
    { intros j Hj. specialize (Hkeys (S j) ltac:(simpl; lia)).
      now replace (S k + j)%nat with (k + S j)%nat by lia. }
    exists v'. split; [exact Hrun|]. split; [exact Hlen'|]. split.
    + intros i Hno. rewrite Hnone.
      * rewrite Hv1, decide_False; [reflexivity|].
        apply (Hno 0%nat dofs0); [simpl; lia|].
        now rewrite Nat.add_0_r.
      * intros j dofs Hj Hd. apply (Hno (S j) dofs); [simpl; lia|].
        now replace (k + S j)%nat with (S k + j)%nat by lia.
    + intros i j e' dofs He' Hd Hin Hlater. destruct j as [|j].
      * injection He' as <-. rewrite Nat.add_0_r, Hdofs0 in Hd.
        injection Hd as <-. rewrite Hnone.
        -- now rewrite Hv1, decide_True.
        -- intros j dofs' Hj Hd'. apply (Hlater (S j) dofs').
           ++ simpl. lia.
           ++ now replace (k + S j)%nat with (S k + j)%nat by lia.
      * apply (Hlast i j e' dofs).
        -- exact He'.
        -- now replace (S k + j)%nat with (k + S j)%nat by lia.
        -- exact Hin.
        -- intros j' dofs' Hj' Hd'. apply (Hlater (S j') dofs').
           ++ simpl. lia.
           ++ now replace (k + S j')%nat with (S k + j')%nat by lia.
Qed.

(** The object after a returning constructor and a returning [init]. *)
Lemma initialised (coords : list (list Q)) (expr : list (list string))
    (self0 self1 : t) :
  __init__ dolfin coords expr = MOk self0 ->
  init dolfin self0 = (MOk tt, self1) ->
  self1 = set_displacement_expression
            (Some (map (imap displacement_component) expr)) self0.
Proof.
  intros H0 H1.
  assert (He : shape_parametrization_expression self0 = expr).
  { apply constructor_inversion in H0
      as (d0 & lmin & lmax & _ & _ & _ & _ & _ & ->). reflexivity. }
  unfold init in H1. rewrite (init_loop_run dolfin _ _ []) in H1
    by reflexivity.
  rewrite He in H1. cbn [app] in H1.
  destruct (forallb (well_sized dolfin) expr) eqn:Ef; [|discriminate].
  rewrite (sized_prefix_all dolfin expr Ef) in H1.
  injection H1 as <-. destruct self0; reflexivity.
Qed.

End MeshMotionDisplacement.

Lemma lookup_zeros (n i : nat) : (i < n)%nat -> zeros n !! i = Some 0.
Proof.
  unfold zeros. revert i. induction n as [|n IH]; intros i Hi; [lia|].
  destruct i as [|i]; [reflexivity|]. simpl. apply IH. lia.
Qed.

Section MeshMotionTheorems.

Import MeshMotion.

Variable dolfin : Dolfin.

(** X24. After a returning constructor and a returning [init],
    [compute_displacement] never raises [KeyError] or [AttributeError]: every
    subdomain index it looks up is a key of the dict.  It returns a vector
    with as many entries as it started from, or raises [IndexError]. *)
Theorem compute_displacement_keys_present (coords : list (list Q))
    (expr : list (list string)) (self0 self1 : t) :
  __init__ dolfin coords expr = MOk self0 ->
  init dolfin self0 = (MOk tt, self1) ->
  (exists v, compute_displacement dolfin self1 = MOk v /\
             length v = ndofs dolfin) \/
  compute_displacement dolfin self1 = MRaise (Builtin IndexError).
Proof.
  intros H0 H1. rewrite (initialised dolfin coords expr self0 self1 H0 H1).
  unfold compute_displacement.
  cbn [displacement_expression set_displacement_expression].
  destruct (displace_outcome dolfin
              (set_displacement_expression
                 (Some (map (imap displacement_component) expr)) self0)
              (map (imap displacement_component) expr) 0
              (zeros (ndofs dolfin))) as [(v & Hv & Hlen) | Hv].
  - intros j Hj. rewrite length_map in Hj.
    cbn [subdomain_id_to_deformation_dofs set_displacement_expression].
    apply (constructed_keys dolfin coords expr self0 _ H0). simpl. lia.
  - left. exists v. split; [exact Hv|].
    rewrite Hlen. unfold zeros. apply repeat_length.
  - now right.
Qed.

(** X25. After a returning constructor and a returning [init], with every
    cell dof below the local size [ndofs] and interpolation producing
    vectors of that size, [compute_displacement] returns a vector of size
    [ndofs] in which a dof listed for no subdomain is zero, and a dof listed
    for some subdomains carries the interpolated displacement of the last of
    them: a later subdomain overwrites an earlier one on shared dofs. *)
Theorem compute_displacement_last_writer (coords : list (list Q))
    (expr : list (list string)) (self0 self1 : t) :
  __init__ dolfin coords expr = MOk self0 ->
  init dolfin self0 = (MOk tt, self1) ->
  (forall cell dof, cell ∈ cells dolfin -> dof ∈ cell_dofs dolfin cell ->
     (dof < ndofs dolfin)%nat) ->
  (forall e, length (interpolate dolfin e) = ndofs dolfin) ->
  exists v,
    compute_displacement dolfin self1 = MOk v /\
    length v = ndofs dolfin /\
    (forall i, (i < ndofs dolfin)%nat ->
       (forall j dofs,
          subdomain_id_to_deformation_dofs self0 !! Z.of_nat j = Some dofs ->
          i ∉ dofs) ->
       v !! i = Some 0) /\
    (forall i j T dofs,
       expr !! j = Some T ->
       subdomain_id_to_deformation_dofs self0 !! Z.of_nat j = Some dofs ->
       i ∈ dofs ->
       (forall j' dofs', (j < j')%nat ->
          subdomain_id_to_deformation_dofs self0 !! Z.of_nat j' = Some dofs' ->
          i ∉ dofs') ->
       v !! i = interpolate dolfin (imap displacement_component T) !! i).
Proof.
  intros H0 H1 Hcells Hinterp.
  rewrite (initialised dolfin coords expr self0 self1 H0 H1).
  unfold compute_displacement.
  cbn [displacement_expression set_displacement_expression].
  set (self := set_displacement_expression _ self0).
  destruct (displace_run dolfin self (ndofs dolfin)
              (map (imap displacement_component) expr) 0
              (zeros (ndofs dolfin)) Hinterp)
    as (v & Hrun & Hlen & Hnone & Hlast).
  - unfold zeros. apply repeat_length.
  - intros j Hj. rewrite length_map in Hj. cbn [Nat.add].
    destruct (proj2 (constructed_keys dolfin coords expr self0
                       (Z.of_nat j) H0) ltac:(lia)) as [dofs Hdofs].
    exists dofs. split; [exact Hdofs|].
    pose proof (constructed_lookup dolfin coords expr self0 _ dofs H0 Hdofs)
      as ->.
    apply Forall_forall. intros dof Hdof.
    apply elem_of_owned_dofs_of in Hdof as (_ & cell & Hc & _ & Hin).
    exact (Hcells cell dof Hc Hin).
  - exists v. split; [exact Hrun|]. split; [exact Hlen|]. split.
    + intros i Hi Hno. rewrite Hnone.
      * apply lookup_zeros. exact Hi.
      * intros j dofs _ Hd. exact (Hno j dofs Hd).
    + intros i j T dofs HT Hd Hin Hlater.
      apply (Hlast i j (imap displacement_component T) dofs).
      * now rewrite list_lookup_fmap, HT.
      * exact Hd.
      * exact Hin.
      * intros j' dofs' [Hj' _] Hd'. exact (Hlater j' dofs' Hj' Hd').
Qed.

Lemma move_repeatedly_frame (n : nat) (self : t) :
  reference_coordinates (move_repeatedly dolfin n self)
  = reference_coordinates self /\
  subdomain_id_to_deformation_dofs (move_repeatedly dolfin n self)
  = subdomain_id_to_deformation_dofs self /\
  shape_parametrization_expression (move_repeatedly dolfin n self)
  = shape_parametrization_expression self /\
  displacement_expression (move_repeatedly dolfin n self)
  = displacement_expression self.
Proof.
  revert self. induction n as [|n IH]; intros self; [repeat split|].
  cbn [move_repeatedly].
  destruct (IH (move_mesh dolfin self).2) as (-> & -> & -> & ->).
  unfold move_mesh. destruct (compute_displacement dolfin self);
    repeat split.
Qed.

(** X26. [reset_reference] undoes any number of [move_mesh] calls: whatever
    [ALE.move] did and whether or not some call raised, the coordinates are
    again those copied at construction, and nothing else of the object has
    changed. *)
Theorem reset_reference_restores (n : nat) (self : t) :
  reset_reference (move_repeatedly dolfin n self)
  = (MOk tt, set_coordinates (reference_coordinates self) self).
Proof.
  unfold reset_reference, set_coordinates.
  destruct (move_repeatedly_frame n self) as (-> & -> & -> & ->).
  reflexivity.
Qed.

End MeshMotionTheorems.

Lemma compute_displacement_keys_present_witness :
  exists self0 self1 v,
    MeshMotion.__init__ MeshMotion.two_cells MeshMotion.square
      MeshMotion.stretch = MeshMotion.MOk self0 /\
    MeshMotion.init MeshMotion.two_cells self0 = (MeshMotion.MOk tt, self1) /\
    MeshMotion.compute_displacement MeshMotion.two_cells self1
    = MeshMotion.MOk v.
Proof.
  destruct (MeshMotion.__init__ MeshMotion.two_cells MeshMotion.square
              MeshMotion.stretch) as [self0|e] eqn:E0;
    [|vm_compute in E0; discriminate].
  destruct (MeshMotion.init MeshMotion.two_cells self0) as [r self1] eqn:E1.
  assert (Hr : r = MeshMotion.MOk tt).
  { pose proof E0 as Hc. vm_compute in Hc. injection Hc as <-.
    vm_compute in E1. now injection E1 as <- _. }
  subst r.
  destruct (compute_displacement_keys_present MeshMotion.two_cells
              MeshMotion.square MeshMotion.stretch self0 self1 E0 E1)
    as [(v & Hv & _) | Hfail].
  - exists self0, self1, v. repeat split; assumption.
  - exfalso. pose proof E0 as Hc. vm_compute in Hc. injection Hc as <-.
    vm_compute in E1. injection E1 as <-.
    vm_compute in Hfail. discriminate.
Defined.

Lemma compute_displacement_last_writer_witness :
  exists self0 self1 v,
    MeshMotion.__init__ MeshMotion.two_cells MeshMotion.square
      MeshMotion.stretch = MeshMotion.MOk self0 /\
    MeshMotion.init MeshMotion.two_cells self0 = (MeshMotion.MOk tt, self1) /\
    MeshMotion.compute_displacement MeshMotion.two_cells self1
    = MeshMotion.MOk v /\
    length v = 6%nat.
Proof.
  destruct (MeshMotion.__init__ MeshMotion.two_cells MeshMotion.square
              MeshMotion.stretch) as [self0|e] eqn:E0;
    [|vm_compute in E0; discriminate].
  destruct (MeshMotion.init MeshMotion.two_cells self0) as [r self1] eqn:E1.
  assert (Hr : r = MeshMotion.MOk tt).
  { pose proof E0 as Hc. vm_compute in Hc. injection Hc as <-.
    vm_compute in E1. now injection E1 as <- _. }
  subst r.
  destruct (compute_displacement_last_writer MeshMotion.two_cells
              MeshMotion.square MeshMotion.stretch self0 self1 E0 E1)
    as (v & Hv & Hlen & _).
  - intros cell dof Hcell Hdof. simpl in *.
    apply elem_of_cons in Hcell as [-> | Hcell].
    + simpl in Hdof. repeat (apply elem_of_cons in Hdof as [-> | Hdof]; [lia|]).
      now apply not_elem_of_nil in Hdof.
    + apply list_elem_of_singleton in Hcell as ->. simpl in Hdof.
      repeat (apply elem_of_cons in Hdof as [-> | Hdof]; [lia|]).
      now apply not_elem_of_nil in Hdof.
  - intros e. apply repeat_length.
  - exists self0, self1, v. repeat split; assumption.
Defined.

Lemma reset_reference_restores_witness :
  MeshMotion.coordinates
    (MeshMotion.reset_reference
       (MeshMotion.move_repeatedly MeshMotion.two_cells 2
          {| MeshMotion.coordinates := MeshMotion.square;
             MeshMotion.reference_coordinates := MeshMotion.square;
             MeshMotion.subdomain_id_to_deformation_dofs :=
               {[ 0%Z := [0; 1; 2; 3]%nat ]};
             MeshMotion.shape_parametrization_expression := [];
             MeshMotion.displacement_expression :=
               Some [["x[0] - x[0]"; "2*x[1] - x[1]"]]%string |})).2
  = MeshMotion.square.
Proof.
  rewrite (reset_reference_restores MeshMotion.two_cells 2). reflexivity.
Defined.
